(** * Cross-window event bus of the extension (src/events.ts)

    The bus publishes an event by writing its JSON text into the editor's
    secret storage under the key ["window.events." + name]; every window is
    told which key changed, reads the key again, parses the text and hands
    the value to its local listeners.

    The development has three layers:
    - [Js]: JavaScript strings (sequences of UTF-16 code units) and the
      two built-ins the bus calls, [JSON.stringify] and [JSON.parse];
    - [Host]: what the bus sees of the editor: the event emitter, the
      logger, errors and promises;
    - [Events]: [EventsSingleton] itself, line by line, in one window, with
      the secret storage it shares with the other windows.

    Bounds of the model:
    - numbers are integers; a literal with a fraction or an exponent is
      kept as text, and floating point is left out;
    - the order in which an object enumerates keys that look like array
      indices is left out;
    - a listener is known by an identifier and by whether it throws; a
      listener that calls the bus again is left out;
    - the editor's side (secret storage, emitter, logger) is not in the
      repository and follows the contract the specification gives. *)

From Stdlib Require Import NArith ZArith List Ascii String Bool Lia.
From stdpp Require Import base option list gmap strings.

(* ===================================================================== *)
(** ** JavaScript strings *)
(* ===================================================================== *)

Module Js.

(** A JavaScript string is a sequence of 16-bit code units. *)
Abbreviation jsstring := (list N).

(** A string literal of the source, as code units (ASCII literals only). *)
Definition js (s : string) : jsstring :=
  map N_of_ascii (list_ascii_of_string s).

Definition wf_unit (c : N) : Prop := (c < 65536)%N.
Definition wf_string (s : jsstring) : Prop := Forall wf_unit s.

(** [String.prototype.startsWith]. *)
Fixpoint startsWith (s p : jsstring) {struct p} : bool :=
  match p, s with
  | [], _ => true
  | _ :: _, [] => false
  | a :: p', b :: s' => (a =? b)%N && startsWith s' p'
  end.

(** Truthiness of a [string | undefined] value: only a non-empty string
    is truthy. *)
Definition truthy (v : option jsstring) : bool :=
  match v with
  | Some (_ :: _) => true
  | _ => false
  end.

(* ===================================================================== *)
(** ** JSON text of a string: [QuoteJSONString] and its inverse *)
(* ===================================================================== *)

Definition isLeadingSurrogate (c : N) : bool := (55296 <=? c)%N && (c <=? 56319)%N.
Definition isTrailingSurrogate (c : N) : bool := (56320 <=? c)%N && (c <=? 57343)%N.

(** Lower-case hexadecimal digit of a value below 16, and the four digits
    of a code unit ([UnicodeEscape]). *)
Definition hexdigit (d : N) : N := if (d <? 10)%N then (48 + d)%N else (87 + d)%N.

Definition hex4 (c : N) : list N :=
  [hexdigit (c / 4096 mod 16); hexdigit (c / 256 mod 16);
   hexdigit (c / 16 mod 16); hexdigit (c mod 16)]%N.

(** Value of a hexadecimal digit; [JSON.parse] takes both cases. *)
Definition hexval (c : N) : option N :=
  if (48 <=? c)%N && (c <=? 57)%N then Some (c - 48)%N
  else if (97 <=? c)%N && (c <=? 102)%N then Some (c - 87)%N
  else if (65 <=? c)%N && (c <=? 70)%N then Some (c - 55)%N
  else None.

(** One code point of [QuoteJSONString] that is not half of a surrogate
    pair: the two-character escapes of the table, a [\uXXXX] escape for
    control characters and lone surrogates, the unit itself otherwise. *)
Definition escape_unit (c : N) : list N :=
  if (c =? 8)%N then [92; 98]%N
  else if (c =? 9)%N then [92; 116]%N
  else if (c =? 10)%N then [92; 110]%N
  else if (c =? 12)%N then [92; 102]%N
  else if (c =? 13)%N then [92; 114]%N
  else if (c =? 34)%N then [92; 34]%N
  else if (c =? 92)%N then [92; 92]%N
  else if (c <? 32)%N || isLeadingSurrogate c || isTrailingSurrogate c
       then [92; 117]%N ++ hex4 c
  else [c].

(** The characters between the quotes. A leading surrogate followed by a
    trailing one is one code point and is copied. *)
Fixpoint quote_units (s : jsstring) : list N :=
  match s with
  | [] => []
  | c :: s' =>
      if isLeadingSurrogate c then
        match s' with
        | d :: s'' =>
            if isTrailingSurrogate d then c :: d :: quote_units s''
            else escape_unit c ++ quote_units s'
        | [] => escape_unit c
        end
      else escape_unit c ++ quote_units s'
  end.

Definition QuoteJSONString (s : jsstring) : list N :=
  34%N :: quote_units s ++ [34%N].

(** The character after a backslash, for the single-character escapes. *)
Definition unescape (e : N) : option N :=
  if (e =? 34)%N then Some 34%N
  else if (e =? 92)%N then Some 92%N
  else if (e =? 47)%N then Some 47%N
  else if (e =? 98)%N then Some 8%N
  else if (e =? 102)%N then Some 12%N
  else if (e =? 110)%N then Some 10%N
  else if (e =? 114)%N then Some 13%N
  else if (e =? 116)%N then Some 9%N
  else None.

Definition cons_unit (c : N) (r : option (jsstring * list N)) :
    option (jsstring * list N) :=
  match r with
  | Some (t, rest) => Some (c :: t, rest)
  | None => None
  end.

(** JSON string characters up to the closing quote (the opening quote is
    already consumed). Control characters may not appear unescaped. *)
Fixpoint parse_chars (s : list N) : option (jsstring * list N) :=
  match s with
  | [] => None
  | c :: r =>
      if (c =? 34)%N then Some ([], r)
      else if (c =? 92)%N then
        match r with
        | [] => None
        | e :: r1 =>
            if (e =? 117)%N then
              match r1 with
              | h1 :: h2 :: h3 :: h4 :: r2 =>
                  match hexval h1, hexval h2, hexval h3, hexval h4 with
                  | Some a, Some b, Some c', Some d =>
                      cons_unit (4096 * a + 256 * b + 16 * c' + d)%N (parse_chars r2)
                  | _, _, _, _ => None
                  end
              | _ => None
              end
            else
              match unescape e with
              | Some u => cons_unit u (parse_chars r1)
              | None => None
              end
        end
      else if (c <? 32)%N then None
      else cons_unit c (parse_chars r)
  end.

(* ===================================================================== *)
(** ** JSON values *)
(* ===================================================================== *)

(** The values [JSON.parse] can return. Numbers are modelled on their
    integer fragment: [JNum n] is the number [n]; a numeric literal with a
    fraction or an exponent denotes a float, whose value is not modelled,
    and is carried as its lexeme ([JFrac]). An object lists its own
    properties in enumeration order (the reordering of array-index keys
    is not modelled). *)
Unset Elimination Schemes.
Inductive json : Type :=
  | JNull
  | JBool (b : bool)
  | JNum (n : Z)
  | JFrac (lexeme : jsstring)
  | JString (s : jsstring)
  | JArray (l : list json)
  | JObject (m : list (jsstring * json)).
Set Elimination Schemes.

(** [Get(O, k)] on own properties. *)
Fixpoint obj_get (k : jsstring) (m : list (jsstring * json)) : option json :=
  match m with
  | [] => None
  | (k', v) :: m' => if bool_decide (k = k') then Some v else obj_get k m'
  end.

(** [CreateDataProperty(O, k, v)]: an existing property keeps its place
    and takes the new value, a new one goes last. *)
Fixpoint obj_set (k : jsstring) (v : json) (m : list (jsstring * json)) :
    list (jsstring * json) :=
  match m with
  | [] => [(k, v)]
  | (k', v') :: m' =>
      if bool_decide (k = k') then (k, v) :: m' else (k', v') :: obj_set k v m'
  end.

Definition obj_of_members (ms : list (jsstring * json)) : list (jsstring * json) :=
  fold_left (fun m kv => obj_set kv.1 kv.2 m) ms [].

Definition field (k : jsstring) (v : json) : option json :=
  match v with
  | JObject m => obj_get k m
  | _ => None
  end.

(** Values that [JSON.stringify] writes without loss: integers that a
    double holds exactly, strings of 16-bit units, objects without
    repeated keys. *)
Fixpoint serializable (v : json) : bool :=
  match v with
  | JNull | JBool _ => true
  | JNum n => (Z.abs n <=? 9007199254740991)%Z
  | JFrac _ => false
  | JString s => forallb (fun c => c <? 65536)%N s
  | JArray l => forallb serializable l
  | JObject m =>
      bool_decide (NoDup (map fst m)) &&
      forallb (fun kv => forallb (fun c => c <? 65536)%N kv.1 && serializable kv.2) m
  end.

(** Induction on a value with its elements and members. *)
Section JsonInd.
Variable P : json -> Prop.
Hypothesis HNull : P JNull.
Hypothesis HBool : forall b, P (JBool b).
Hypothesis HNum : forall n, P (JNum n).
Hypothesis HFrac : forall lexeme, P (JFrac lexeme).
Hypothesis HString : forall s, P (JString s).
Hypothesis HArray : forall l, Forall P l -> P (JArray l).
Hypothesis HObject : forall m, Forall (fun kv => P kv.2) m -> P (JObject m).

Fixpoint json_ind (v : json) : P v :=
  match v with
  | JNull => HNull
  | JBool b => HBool b
  | JNum n => HNum n
  | JFrac lexeme => HFrac lexeme
  | JString s => HString s
  | JArray l =>
      HArray l
        ((fix all (l : list json) : Forall P l :=
            match l with
            | [] => @List.Forall_nil _ P
            | x :: l' => @List.Forall_cons _ P x l' (json_ind x) (all l')
            end) l)
  | JObject m =>
      HObject m
        ((fix all (m : list (jsstring * json)) : Forall (fun kv => P kv.2) m :=
            match m with
            | [] => @List.Forall_nil _ _
            | kv :: m' => @List.Forall_cons _ (fun kv => P kv.2) kv m' (json_ind kv.2) (all m')
            end) m)
  end.
End JsonInd.

(* ===================================================================== *)
(** ** Numbers *)
(* ===================================================================== *)

Definition is_digit (c : N) : bool := (48 <=? c)%N && (c <=? 57)%N.

(** Decimal digits of a natural number, most significant first. *)
Fixpoint digits_fuel (fuel : nat) (n : N) : list N :=
  match fuel with
  | O => []
  | S f =>
      if (n <? 10)%N then [48 + n]%N
      else digits_fuel f (n / 10)%N ++ [48 + n mod 10]%N
  end.

Definition digits (n : N) : list N := digits_fuel (S (N.to_nat (N.size n))) n.

(** [Number::toString] on integers. *)
Definition NumberToString (n : Z) : list N :=
  if (n <? 0)%Z then 45%N :: digits (Z.to_N (- n)) else digits (Z.to_N n).

Fixpoint span_digits (s : list N) : list N * list N :=
  match s with
  | c :: r =>
      if is_digit c then let '(ds, rest) := span_digits r in (c :: ds, rest)
      else ([], s)
  | [] => ([], [])
  end.

Definition digits_value (ds : list N) : N :=
  fold_left (fun a c => 10 * a + (c - 48))%N ds 0%N.

(** Integer part of a JSON number: [0], or a non-zero digit and digits. *)
Definition scan_int (s : list N) : option (list N * list N) :=
  match s with
  | c :: r =>
      if (c =? 48)%N then Some ([48%N], r)
      else if is_digit c then Some (span_digits s)
      else None
  | [] => None
  end.

(** Optional fraction: a dot needs a digit after it. *)
Definition scan_frac (s : list N) : option (list N * list N) :=
  match s with
  | c :: r =>
      if (c =? 46)%N then
        match r with
        | d :: _ =>
            if is_digit d then let '(ds, rest) := span_digits r in Some (46%N :: ds, rest)
            else None
        | [] => None
        end
      else Some ([], s)
  | [] => Some ([], [])
  end.

(** Optional exponent: [e] or [E], an optional sign, at least one digit. *)
Definition scan_exp (s : list N) : option (list N * list N) :=
  match s with
  | c :: r =>
      if (c =? 101)%N || (c =? 69)%N then
        let '(sg, r1) :=
          match r with
          | g :: r' => if (g =? 43)%N || (g =? 45)%N then ([g], r') else ([], r)
          | [] => ([], r)
          end in
        match r1 with
        | d :: _ =>
            if is_digit d then let '(ds, rest) := span_digits r1 in Some (c :: sg ++ ds, rest)
            else None
        | [] => None
        end
      else Some ([], s)
  | [] => Some ([], [])
  end.

Definition parse_number (s : list N) : option (json * list N) :=
  let '(neg, s1) :=
    match s with
    | c :: r => if (c =? 45)%N then (true, r) else (false, s)
    | [] => (false, s)
    end in
  match scan_int s1 with
  | None => None
  | Some (ip, s2) =>
      match scan_frac s2 with
      | None => None
      | Some (fp, s3) =>
          match scan_exp s3 with
          | None => None
          | Some (ep, s4) =>
              match fp, ep with
              | [], [] =>
                  let n := Z.of_N (digits_value ip) in
                  Some (JNum (if neg then - n else n)%Z, s4)
              | _, _ =>
                  Some (JFrac ((if neg then [45%N] else []) ++ ip ++ fp ++ ep), s4)
              end
          end
      end
  end.

(* ===================================================================== *)
(** ** [JSON.stringify] *)
(* ===================================================================== *)

Section Text.
(** The text of one value. *)
Variable sv : json -> list N.

(** Elements and closing bracket of an array, after the opening one. *)
Fixpoint items_text (l : list json) : list N :=
  match l with
  | [] => [93%N]
  | x :: l' =>
      sv x ++
      match l' with
      | [] => [93%N]
      | _ :: _ => 44%N :: items_text l'
      end
  end.

(** Members and closing brace of an object, after the opening one. *)
Fixpoint members_text (m : list (jsstring * json)) : list N :=
  match m with
  | [] => [125%N]
  | kv :: m' =>
      QuoteJSONString kv.1 ++ 58%N :: sv kv.2 ++
      match m' with
      | [] => [125%N]
      | _ :: _ => 44%N :: members_text m'
      end
  end.
End Text.

(** [JSON.stringify(v)] with no replacer and no indentation: no white
    space, elements and members separated by commas. *)
Fixpoint JSON_stringify (v : json) : list N :=
  match v with
  | JNull => js "null"
  | JBool true => js "true"
  | JBool false => js "false"
  | JNum n => NumberToString n
  | JFrac lexeme => lexeme
  | JString s => QuoteJSONString s
  | JArray l => 91%N :: items_text JSON_stringify l
  | JObject m => 123%N :: members_text JSON_stringify m
  end.

(* ===================================================================== *)
(** ** [JSON.parse] *)
(* ===================================================================== *)

(** Result of a parser that runs on fuel: a value and the rest of the
    text, a syntax error, or fuel exhausted. *)
Inductive presult (A : Type) : Type :=
  | POk (v : A) (rest : list N)
  | PSyntax
  | PFuel.
Arguments POk {A} v rest.
Arguments PSyntax {A}.
Arguments PFuel {A}.

Definition is_ws (c : N) : bool :=
  (c =? 32)%N || (c =? 9)%N || (c =? 10)%N || (c =? 13)%N.

Fixpoint skip_ws (s : list N) : list N :=
  match s with
  | c :: r => if is_ws c then skip_ws r else s
  | [] => []
  end.

(** The text without a leading [p], if it starts with [p]. *)
Fixpoint strip_prefix (p s : list N) : option (list N) :=
  match p, s with
  | [], _ => Some s
  | _ :: _, [] => None
  | a :: p', b :: s' => if (a =? b)%N then strip_prefix p' s' else None
  end.

Section Loops.
(** The parser of one value, at the fuel of the enclosing call. *)
Variable pv : list N -> presult json.

(** Elements of a non-empty array, up to the closing bracket. *)
Fixpoint parse_elements (n : nat) (s : list N) : presult (list json) :=
  match n with
  | O => PFuel
  | S n' =>
      match pv s with
      | POk v r =>
          match skip_ws r with
          | c :: r' =>
              if (c =? 44)%N then
                match parse_elements n' r' with
                | POk l r'' => POk (v :: l) r''
                | PSyntax => PSyntax
                | PFuel => PFuel
                end
              else if (c =? 93)%N then POk [v] r'
              else PSyntax
          | [] => PSyntax
          end
      | PSyntax => PSyntax
      | PFuel => PFuel
      end
  end.

(** Members of a non-empty object, up to the closing brace. *)
Fixpoint parse_members (n : nat) (s : list N) : presult (list (jsstring * json)) :=
  match n with
  | O => PFuel
  | S n' =>
      match skip_ws s with
      | q :: r0 =>
          if (q =? 34)%N then
            match parse_chars r0 with
            | Some (k, r1) =>
                match skip_ws r1 with
                | c :: r2 =>
                    if (c =? 58)%N then
                      match pv r2 with
                      | POk v r3 =>
                          match skip_ws r3 with
                          | d :: r4 =>
                              if (d =? 44)%N then
                                match parse_members n' r4 with
                                | POk m r5 => POk ((k, v) :: m) r5
                                | PSyntax => PSyntax
                                | PFuel => PFuel
                                end
                              else if (d =? 125)%N then POk [(k, v)] r4
                              else PSyntax
                          | [] => PSyntax
                          end
                      | PSyntax => PSyntax
                      | PFuel => PFuel
                      end
                    else PSyntax
                | [] => PSyntax
                end
            | None => PSyntax
            end
          else PSyntax
      | [] => PSyntax
      end
  end.
End Loops.

Definition of_option {A} (r : option (A * list N)) : presult A :=
  match r with
  | Some (v, rest) => POk v rest
  | None => PSyntax
  end.

Definition literal (p : list N) (v : json) (s : list N) : presult json :=
  match strip_prefix p s with
  | Some rest => POk v rest
  | None => PSyntax
  end.

(** The text after white space and the character [c], if that comes next. *)
Definition closes (c : N) (s : list N) : option (list N) :=
  match skip_ws s with
  | c' :: r => if (c' =? c)%N then Some r else None
  | [] => None
  end.

(** One JSON value with white space before it. *)
Fixpoint parse_value (fuel : nat) (s : list N) : presult json :=
  match fuel with
  | O => PFuel
  | S f =>
      match skip_ws s with
      | [] => PSyntax
      | c :: r =>
          if (c =? 123)%N then
            match closes 125 r with
            | Some r' => POk (JObject []) r'
            | None =>
                match parse_members (parse_value f) f r with
                | POk ms r' => POk (JObject (obj_of_members ms)) r'
                | PSyntax => PSyntax
                | PFuel => PFuel
                end
            end
          else if (c =? 91)%N then
            match closes 93 r with
            | Some r' => POk (JArray []) r'
            | None =>
                match parse_elements (parse_value f) f r with
                | POk l r' => POk (JArray l) r'
                | PSyntax => PSyntax
                | PFuel => PFuel
                end
            end
          else if (c =? 34)%N then
            of_option (option_map (fun '(t, rest) => (JString t, rest)) (parse_chars r))
          else if (c =? 116)%N then literal (js "rue") (JBool true) r
          else if (c =? 102)%N then literal (js "alse") (JBool false) r
          else if (c =? 110)%N then literal (js "ull") JNull r
          else of_option (parse_number (c :: r))
      end
  end.

(** [JSON.parse(text)] without reviver: [None] is the [SyntaxError]. The
    fuel is more than the text can use ([parse_value_fuel]). *)
Definition JSON_parse (text : jsstring) : option json :=
  match parse_value (S (length text)) text with
  | POk v rest =>
      match skip_ws rest with
      | [] => Some v
      | _ :: _ => None
      end
  | PSyntax | PFuel => None
  end.

(* ===================================================================== *)
(** ** Notions used to state what the parser does *)
(* ===================================================================== *)

(** Text after which a value ends: nothing, or the next separator. *)
Definition delimited (rest : list N) : Prop :=
  match rest with
  | [] => True
  | c :: _ => c = 44%N \/ c = 93%N \/ c = 125%N
  end.

(** First character of the text of a value. *)
Definition opens (h : N) : Prop :=
  h ∈ [110; 116; 102; 45; 34; 91; 123]%N \/ is_digit h = true.

(** [pv] reads the text of [x] back, on any text shorter than [f]. *)
Definition reads_back (f : nat) (pv : list N -> presult json) (x : json) : Prop :=
  forall rest,
    length (JSON_stringify x ++ rest) < f -> delimited rest ->
    pv (JSON_stringify x ++ rest) = POk x rest.

(** A parser that, when it succeeds, leaves less text than it was given. *)
Definition shortens {A} (p : list N -> presult A) : Prop :=
  forall s v r, p s = POk v r -> length r < length s.

(** A parser that does not run out of fuel on texts shorter than [b]. *)
Definition fuelled {A} (b : nat) (p : list N -> presult A) : Prop :=
  forall s, length s < b -> p s <> PFuel.

End Js.

(* ===================================================================== *)
(** ** The editor as the bus sees it *)
(* ===================================================================== *)

Module Host.
Import Js.

(** Modelled from the spec: the logger module of the extension is not
    among the sources; a call of one of its methods is recorded with the
    level and the message. *)
Inductive Level : Type := Debug | Info | Warn | Error.

Inductive JsError : Type := TypeError | SyntaxError | StoreUnavailable.

(** Settlement of a promise. *)
Inductive Outcome : Type := Resolved | Rejected (e : JsError).

(** A callback registered on the bus. What the bus can tell of it: which
    one it is, and whether it throws on a given argument. *)
Record Listener : Type := { lid : nat; throws : json -> bool }.

(** What a window does that can be seen from outside, in order. *)
Inductive Obs : Type :=
  | Logged (lvl : Level) (msg : jsstring)
  | SecretStore (key value : jsstring)
  | SecretGet (key : jsstring)
  | OnDidChange (this : nat)
  | Invoked (l : nat) (arg : json)
  | ListenerError (l : nat)
  | Unhandled (e : JsError).

(** Modelled from the spec: [vscode.EventEmitter.fire], the editor's
    emitter, is not part of the repository. Listeners are called in
    registration order; an error thrown by one is reported and the
    remaining ones are still called. *)
Fixpoint emitter_fire (listeners : list Listener) (v : json) : list Obs :=
  match listeners with
  | [] => []
  | l :: ls =>
      Invoked (lid l) v ::
      (if throws l v then [ListenerError (lid l)] else []) ++ emitter_fire ls v
  end.

(** [ToString] of a plain object whose own properties hold JSON values,
    as a template literal applies it. [Object.prototype.toString] answers
    unless an own property named [toString] hides it: that property is
    not callable, the inherited [valueOf] returns the object itself, and
    the conversion throws a [TypeError]. *)
Definition ToString_object (m : list (jsstring * json)) : option jsstring :=
  match obj_get (js "toString") m with
  | None => Some (js "[object Object]")
  | Some _ => None
  end.

End Host.

(* ===================================================================== *)
(** ** src/events.ts *)
(* ===================================================================== *)

Module Events.
Import Js Host.

(** [interface IEventPayload]; the payload is a [Record<string, unknown>],
    given by its own properties. *)
Record IEventPayload : Type := {
  name : jsstring;
  payload : list (jsstring * json)
}.

(** The object [{ name, payload }] that [JSON.stringify] receives. *)
Definition envelope (event : IEventPayload) : json :=
  JObject [(js "name", JString (name event)); (js "payload", JObject (payload event))].

Definition EVENT_KEY_PREFIX : jsstring := js "window.events.".

(** An [EventsSingleton] object: its emitter, that is the listeners
    registered through [event], oldest first. *)
Record EventsSingleton : Type := { eventEmitter : list Listener }.

(** One window (one extension host) and the secret storage it shares with
    the other windows.
    - [secrets], [online]: the storage and whether it can be reached;
    - [inbox]: keys of change notifications raised and not yet delivered
      to this window;
    - [reads]: [secrets.get] calls awaited by a suspended listener, with
      the [this] of that listener;
    - [instance]: the static field [EventsSingleton.instance];
    - [objects]: the [EventsSingleton] objects constructed so far, a
      reference being an index;
    - [subscriptions]: the [onDidChange] listeners pushed on
      [extContext.subscriptions], each by the [this] it closes over;
    - [trace]: what the window has done so far. *)
Record Window : Type := {
  secrets : gmap jsstring jsstring;
  online : bool;
  inbox : list jsstring;
  reads : list (nat * jsstring);
  instance : option nat;
  objects : list EventsSingleton;
  subscriptions : list nat;
  trace : list Obs
}.

Definition set_secrets (f : gmap jsstring jsstring -> gmap jsstring jsstring) (w : Window) :=
  {| secrets := f (secrets w); online := online w; inbox := inbox w; reads := reads w;
     instance := instance w; objects := objects w; subscriptions := subscriptions w;
     trace := trace w |}.

Definition set_online (b : bool) (w : Window) :=
  {| secrets := secrets w; online := b; inbox := inbox w; reads := reads w;
     instance := instance w; objects := objects w; subscriptions := subscriptions w;
     trace := trace w |}.

Definition set_inbox (q : list jsstring) (w : Window) :=
  {| secrets := secrets w; online := online w; inbox := q; reads := reads w;
     instance := instance w; objects := objects w; subscriptions := subscriptions w;
     trace := trace w |}.

Definition set_reads (q : list (nat * jsstring)) (w : Window) :=
  {| secrets := secrets w; online := online w; inbox := inbox w; reads := q;
     instance := instance w; objects := objects w; subscriptions := subscriptions w;
     trace := trace w |}.

Definition set_instance (i : option nat) (w : Window) :=
  {| secrets := secrets w; online := online w; inbox := inbox w; reads := reads w;
     instance := i; objects := objects w; subscriptions := subscriptions w;
     trace := trace w |}.

Definition set_objects (os : list EventsSingleton) (w : Window) :=
  {| secrets := secrets w; online := online w; inbox := inbox w; reads := reads w;
     instance := instance w; objects := os; subscriptions := subscriptions w;
     trace := trace w |}.

Definition set_subscriptions (ss : list nat) (w : Window) :=
  {| secrets := secrets w; online := online w; inbox := inbox w; reads := reads w;
     instance := instance w; objects := objects w; subscriptions := ss;
     trace := trace w |}.

Definition observe (os : list Obs) (w : Window) :=
  {| secrets := secrets w; online := online w; inbox := inbox w; reads := reads w;
     instance := instance w; objects := objects w; subscriptions := subscriptions w;
     trace := trace w ++ os |}.

(** A window that has just been activated: [StorageManager.createInstance]
    has run (activation does it first, so that [storage()] answers),
    nothing else has. *)
Definition boot (store : gmap jsstring jsstring) (up : bool) : Window :=
  {| secrets := store; online := up; inbox := []; reads := [];
     instance := None; objects := []; subscriptions := []; trace := [] |}.

(** *** Secret storage *)

(** Modelled from the spec: [secrets.store(key, value)] of the editor's
    secret storage. When the storage is reached the value is written and
    a change notification for the key is raised, one for each write (this
    window hears its own writes); otherwise the promise rejects. *)
Definition secrets_store (key value : jsstring) (w : Window) : Outcome * Window :=
  let w1 := observe [SecretStore key value] w in
  if online w then
    (Resolved, set_inbox (inbox w ++ [key]) (set_secrets (insert key value) w1))
  else (Rejected StoreUnavailable, w1).

(** Modelled from the spec: another window stores or deletes a secret,
    and this window is notified. *)
Definition remote_store (key value : jsstring) (w : Window) : Window :=
  set_inbox (inbox w ++ [key]) (set_secrets (insert key value) w).

Definition remote_delete (key : jsstring) (w : Window) : Window :=
  set_inbox (inbox w ++ [key]) (set_secrets (delete key) w).

(** *** The class *)

(** [private constructor()]: a new object with an empty emitter, and one
    more [onDidChange] listener, closed over the new object, pushed on
    the context's subscriptions. *)
Definition constructor (w : Window) : nat * Window :=
  let this := length (objects w) in
  (this,
   observe [OnDidChange this]
     (set_subscriptions (subscriptions w ++ [this])
        (set_objects (objects w ++ [{| eventEmitter := [] |}]) w))).

(** [static getInstance()]. *)
Definition getInstance (w : Window) : nat * Window :=
  match instance w with
  | Some this => (this, w)
  | None =>
      let '(this, w1) := constructor w in
      (this, observe [Logged Info (js "EventsSingleton instance created")]
               (set_instance (Some this) w1))
  end.

(** [events()]. *)
Definition events (w : Window) : nat * Window := getInstance w.

(** [async fire(event)]; the method does not use [this]. The template
    literal of the debug line converts the payload to a string before
    anything is stored. *)
Definition fire (event : IEventPayload) (w : Window) : Outcome * Window :=
  match ToString_object (payload event) with
  | None => (Rejected TypeError, w)
  | Some p =>
      let w1 :=
        observe [Logged Debug (js "Firing event: " ++ name event ++
                               js " with payload: " ++ p)] w in
      secrets_store (EVENT_KEY_PREFIX ++ name event) (JSON_stringify (envelope event)) w1
  end.

(** [event = this.eventEmitter.event], applied to a listener: the
    listener is added after those already registered. *)
Definition event (this : nat) (l : Listener) (w : Window) : Window :=
  match objects w !! this with
  | Some o =>
      set_objects (<[this := {| eventEmitter := eventEmitter o ++ [l] |}]> (objects w)) w
  | None => w
  end.

(** The listener given to [secrets.onDidChange], up to its [await]: the
    prefix test, the debug line, the call of [secrets.get]. *)
Definition onDidChange_listener (this : nat) (key : jsstring) (w : Window) : Window :=
  if startsWith key EVENT_KEY_PREFIX then
    set_reads (reads w ++ [(this, key)])
      (observe [Logged Debug (js "Event emitted: " ++ key); SecretGet key] w)
  else w.

(** The same listener from the point where [secrets.get] settles. A
    rejection of [get] and an error thrown by [JSON.parse] end the async
    function with a rejected promise that nothing handles. *)
Definition onDidChange_resume (this : nat) (key : jsstring) (w : Window) : Window :=
  if online w then
    match secrets w !! key with
    | Some payload =>
        if truthy (Some payload) then
          let w1 := observe [Logged Debug (js "Event payload: " ++ payload)] w in
          match JSON_parse payload with
          | Some v =>
              match objects w !! this with
              | Some o => observe (emitter_fire (eventEmitter o) v) w1
              | None => w1
              end
          | None => observe [Unhandled SyntaxError] w1
          end
        else w
    | None => w
    end
  else observe [Unhandled StoreUnavailable] w.

(** *** Scheduling *)

(** The oldest pending notification reaches every registered listener. *)
Definition deliver (w : Window) : Window :=
  match inbox w with
  | [] => w
  | key :: rest =>
      fold_left (fun w this => onDidChange_listener this key w)
                (subscriptions w) (set_inbox rest w)
  end.

(** One awaited [secrets.get] settles, with the value the storage holds
    at that time, and its listener goes on. Every suspended listener
    awaits a promise of its own and nothing orders their settlement: the
    read that settles is any of those awaited, the one at position [i]
    counting from the oldest. *)
Definition resume (i : nat) (w : Window) : Window :=
  match reads w !! i with
  | None => w
  | Some (this, key) => onDidChange_resume this key (set_reads (delete i (reads w)) w)
  end.

(** What can happen in a window, one thing at a time. *)
Inductive Op : Type :=
  | Access
  | Fire (event : IEventPayload)
  | Subscribe (l : Listener)
  | Deliver
  | Resume (i : nat)
  | RemoteStore (key value : jsstring)
  | RemoteDelete (key : jsstring)
  | Online (b : bool).

Definition exec (op : Op) (w : Window) : Window :=
  match op with
  | Access => (events w).2
  | Fire e => let '(_, w1) := events w in (fire e w1).2
  | Subscribe l => let '(this, w1) := events w in event this l w1
  | Deliver => deliver w
  | Resume i => resume i w
  | RemoteStore k v => remote_store k v w
  | RemoteDelete k => remote_delete k w
  | Online b => set_online b w
  end.

Definition run (ops : list Op) (w : Window) : Window :=
  fold_left (fun w op => exec op w) ops w.

(** The listener calls of a trace, in order. *)
Definition dispatches (t : list Obs) : list (nat * json) :=
  omap (fun o => match o with Invoked l v => Some (l, v) | _ => None end) t.

(** The [secrets.store] calls of a trace, and the number of
    [onDidChange] registrations in it. *)
Definition stores (t : list Obs) : list (jsstring * jsstring) :=
  omap (fun o => match o with SecretStore k v => Some (k, v) | _ => None end) t.

Definition registrations (t : list Obs) : nat :=
  length (omap (fun o => match o with OnDidChange this => Some this | _ => None end) t).

(** What [w'] has done since [w]. *)
Definition since (w w' : Window) : list Obs := drop (length (trace w)) (trace w').

(** The listeners registered on the object [this]. *)
Definition listeners (w : Window) (this : nat) : list Listener :=
  match objects w !! this with
  | Some o => eventEmitter o
  | None => []
  end.

(** The bus exists, as the object [this], and its listener is the only
    one on [secrets.onDidChange]; suspended listeners belong to it. *)
Definition listening (w : Window) (this : nat) : Prop :=
  instance w = Some this /\ subscriptions w = [this] /\
  this < length (objects w) /\ Forall (fun r => r.1 = this) (reads w).

(** Nothing is pending: no notification to deliver, no read awaited. *)
Definition quiet (w : Window) : Prop := inbox w = [] /\ reads w = [].

(** The state of the static field and of the subscriptions agree: with
    no instance nothing is registered, with an instance its listener is
    the one registration there has been. *)
Definition sound (w : Window) : Prop :=
  match instance w with
  | Some this => listening w this /\ registrations (trace w) = 1
  | None => subscriptions w = [] /\ reads w = [] /\ registrations (trace w) = 0
  end.

(** While notifications for [key] are handled in a window that was [w0]:
    [a] are still in the inbox, [b] have a listener awaiting its read,
    [c] have been dispatched, each to all listeners with the value [v];
    the secret, whose text is [text], and the bus do not change. *)
Definition handling (w0 : Window) (this : nat) (key text : jsstring) (v : json)
    (a b c : nat) (w : Window) : Prop :=
  inbox w = repeat key a /\ reads w = repeat (this, key) b /\
  subscriptions w = [this] /\ online w = true /\
  secrets w !! key = Some text /\ listeners w this = listeners w0 this /\
  exists t, trace w = trace w0 ++ t /\
            dispatches t =
            concat (repeat (map (fun l => (lid l, v)) (listeners w0 this)) c).

(** The steps the scheduler takes on its own. *)
Definition scheduling (op : Op) : bool :=
  match op with
  | Deliver | Resume _ => true
  | _ => false
  end.

(** A log line that reports a failure. *)
Definition reports_failure (o : Obs) : Prop :=
  match o with
  | Logged Warn _ | Logged Error _ => True
  | _ => False
  end.

(** Text written with single quotes for the double quotes of JSON. *)
Definition jsq (s : string) : jsstring :=
  map (fun c => if (c =? 39)%N then 34%N else c) (js s).

End Events.

(** Values used in the examples below. *)
Module Samples.
Import Js Host Events.

Definition providers : IEventPayload :=
  {| name := js "modelProvidersUpdated";
     payload := [(js "ids", JArray [JString (js "a"); JString (js "b")])] |}.

Definition X (v : Z) : IEventPayload :=
  {| name := js "X"; payload := [(js "v", JNum v)] |}.

Definition calm (id : nat) : Listener := {| lid := id; throws := fun _ => false |}.
Definition faulty (id : nat) : Listener := {| lid := id; throws := fun _ => true |}.

(** A window whose bus exists and has one listener. *)
Definition started : Window := run [Access; Subscribe (calm 1)] (boot ∅ true).

(** The same after another window has stored [text] under [key]. *)
Definition told (key text : jsstring) : Window := remote_store key text started.

(** A window with a listener that throws registered before one that does
    not, told of a well-formed event. *)
Definition mixed : Window :=
  remote_store (js "window.events.X") (jsq "{'name':'X','payload':{}}")
    (run [Access; Subscribe (faulty 1); Subscribe (calm 2)] (boot ∅ true)).

End Samples.

(** Notions for the order in which a window handles notifications. *)
Module Order.
Import Js Host Events.

(** The keys whose listener has still to finish, oldest first: those
    awaiting their read, then those in the inbox that the prefix test
    will let through. *)
Definition pending (w : Window) : list jsstring :=
  map snd (reads w) ++ List.filter (fun k => startsWith k EVENT_KEY_PREFIX) (inbox w).

(** The calls that the listener of [this] makes when its read of [key]
    settles in [w]. *)
Definition calls (w : Window) (this : nat) (key : jsstring) : list (nat * json) :=
  if online w then
    match secrets w !! key with
    | Some text =>
        if truthy (Some text) then
          match JSON_parse text with
          | Some v => map (fun l => (lid l, v)) (listeners w this)
          | None => []
          end
        else []
    | None => []
    end
  else [].

(** What a key read or written by the bus looks like. *)
Definition in_namespace (key : jsstring) : Prop :=
  exists n, key = EVENT_KEY_PREFIX ++ n.

(** An observation that stays inside the namespace. *)
Definition confined (o : Obs) : Prop :=
  match o with
  | SecretGet key | SecretStore key _ => in_namespace key
  | _ => True
  end.

(** [w'] continues [w] with observations that stay inside the namespace. *)
Definition continues (w w' : Window) : Prop :=
  exists t, trace w' = trace w ++ t /\ Forall confined t.

(** In a window that was [w0], with an unchanged storage and bus, the
    listeners of the keys [done] have finished, in that order, and the
    keys still pending are the others that were pending in [w0]. *)
Definition handled (w0 : Window) (this : nat) (done : list jsstring) (w : Window) : Prop :=
  secrets w = secrets w0 /\ online w = online w0 /\ objects w = objects w0 /\
  subscriptions w = [this] /\ Forall (fun r => r.1 = this) (reads w) /\
  done ++ pending w ≡ₚ pending w0 /\
  exists t, trace w = trace w0 ++ t /\
            dispatches t = concat (map (calls w0 this) done).

(** An event whose payload has an own property named [toString]. *)
Definition shadowing : IEventPayload :=
  {| name := js "X"; payload := [(js "toString", JNum 1); (js "v", JNum 2)] |}.

End Order.

(* ===================================================================== *)
(** ** src/startup.ts *)
(* ===================================================================== *)

Module Startup.
Import Js Host.

(** [Array.prototype.includes] with a string for argument: some element
    is that string. *)
Definition includes (l : list json) (s : jsstring) : bool :=
  existsb (fun x => match x with JString t => bool_decide (t = s) | _ => false end) l.

(** [isArgvJsonOutdated] has the same block twice, for the property
    ["enable-proposed-api"] with the extension id and for ["log-level"]
    with the id followed by [=debug]. This is the block, for the property
    [key] and the string [entry], on the flag [argvJsonOutdated], the
    parsed object and the lines logged so far: an array gets the entry
    pushed unless it has it, a string becomes the array of itself and the
    entry, anything else is replaced by the array of the entry. *)
Definition add_entry (key entry : jsstring)
    (st : bool * list (jsstring * json) * list Obs) :
    bool * list (jsstring * json) * list Obs :=
  let '(argvJsonOutdated, argvJson, logged) := st in
  match obj_get key argvJson with
  | Some (JArray l) =>
      if negb (includes l entry) then
        (true, obj_set key (JArray (l ++ [JString entry])) argvJson,
         logged ++ [Logged Debug (js "Added " ++ entry ++ js " to existing array")])
      else
        (argvJsonOutdated, argvJson,
         logged ++ [Logged Debug (entry ++ js " already in array")])
  | Some (JString s) =>
      (true, obj_set key (JArray [JString s; JString entry]) argvJson,
       logged ++ [Logged Debug (js "Created new array with " ++ entry)])
  | _ =>
      (true, obj_set key (JArray [JString entry]) argvJson,
       logged ++ [Logged Debug (js "Created new array with " ++ entry)])
  end.

(** What a run of [isArgvJsonOutdated] leaves: the flag it returns, the
    object, the lines logged, and the object handed to [stringify] for
    [writeFile], if the file is written. *)
Record ArgvRun : Type := {
  argvJsonOutdated : bool;
  argvJson : list (jsstring * json);
  logged : list Obs;
  written : option (list (jsstring * json))
}.

(** [isArgvJsonOutdated] from the point where argv.json has been read and
    parsed into [argvJson0] (the part before it finds the file through
    the editor): the two blocks, then the write if the flag is set. *)
Definition isArgvJsonOutdated (extensionId : jsstring)
    (argvJson0 : list (jsstring * json)) : ArgvRun :=
  let logLevel := extensionId ++ js "=debug" in
  let '(outdated, argv, lines) :=
    add_entry (js "log-level") logLevel
      (add_entry (js "enable-proposed-api") extensionId (false, argvJson0, [])) in
  {| argvJsonOutdated := outdated;
     argvJson := argv;
     logged := lines ++
               (if outdated then [Logged Info (js "Successfully updated argv.json")]
                else []);
     written := if outdated then Some argv else None |}.

(** The property [key] is an array that has [entry]. *)
Definition listed (key entry : jsstring) (argv : list (jsstring * json)) : Prop :=
  exists l, obj_get key argv = Some (JArray l) /\ includes l entry = true.

End Startup.

(* ===================================================================== *)
(** ** The packaging script that keeps one platform's binary *)
(* ===================================================================== *)

Module BuildScript.
Import Js.

Definition targetMapping : list (jsstring * jsstring) :=
  [(js "win32-x64", js "node-napi.win32-x64-msvc.node");
   (js "win32-arm64", js "node-napi.win32-arm64-msvc.node");
   (js "linux-x64", js "node-napi.linux-x64-gnu.node");
   (js "linux-arm64", js "node-napi.linux-arm64-gnu.node");
   (js "linux-armhf", js "node-napi.linux-arm-gnueabihf.node");
   (js "alpine-x64", js "node-napi.linux-x64-musl.node");
   (js "darwin-x64", js "node-napi.darwin-x64.node");
   (js "darwin-arm64", js "node-napi.darwin-arm64.node");
   (js "alpine-arm64", js "node-napi.linux-arm64-musl.node")].

(** [targetMapping[target]] on own properties. *)
Fixpoint binary_of (target : jsstring) (m : list (jsstring * jsstring)) :
    option jsstring :=
  match m with
  | [] => None
  | (k, file) :: m' => if bool_decide (target = k) then Some file else binary_of target m'
  end.

(** The argument parser of [--target]: the value must be one of
    [Object.keys(targetMapping)]; [None] is the [InvalidArgumentError],
    on which the script ends before it looks at the directory. *)
Definition parse_target (value : jsstring) : option jsstring :=
  let targetPlatforms := map fst targetMapping in
  if bool_decide (value ∈ targetPlatforms) then Some value else None.

(** What a name in the output directory stands for: a file that can be
    removed, a directory, or a file that may not be removed (the
    directory is read-only, the file is read-only or in use). *)
Inductive Kind : Type := File | Directory | Protected.

(** Why [unlinkSync] throws: the name is that of a directory ([EISDIR];
    some platforms say [EPERM]), the file may not be removed ([EACCES],
    or [EPERM], [EBUSY]), or nothing has that name ([ENOENT]). *)
Inductive FsError : Type := EISDIR | EACCES | ENOENT.

(** The kind of the entry called [file], in a directory given by its
    entries in the order in which [readdirSync] lists them. *)
Fixpoint kind_of (file : jsstring) (dir : list (jsstring * Kind)) : option Kind :=
  match dir with
  | [] => None
  | (name, kind) :: dir' =>
      if bool_decide (name = file) then Some kind else kind_of file dir'
  end.

(** [fs.unlinkSync(path.join(outDir, file))]: a file is removed from the
    directory; on a directory, on a file that may not be removed and on a
    name that is not there, the call throws. *)
Definition unlinkSync (file : jsstring) (dir : list (jsstring * Kind)) :
    FsError + list (jsstring * Kind) :=
  match kind_of file dir with
  | Some File => inr (List.filter (fun e => negb (bool_decide (e.1 = file))) dir)
  | Some Directory => inl EISDIR
  | Some Protected => inl EACCES
  | None => inl ENOENT
  end.

(** What a run of the script leaves: the lines printed, the directory,
    and the error that ended the run, if one did. *)
Record Swept : Type := {
  printed : list jsstring;
  left_in_dir : list (jsstring * Kind);
  thrown : option FsError
}.

(** The [for] loop over the names that [readdirSync(outDir)] returned,
    with the lines printed so far and the directory as it is now. The
    name of the target's binary is skipped; for another name that starts
    with [node-napi] the line is printed and [unlinkSync] called. Nothing
    catches what [unlinkSync] throws: the script ends there. *)
Fixpoint loop (keep : option jsstring) (files : list jsstring)
    (out : list jsstring) (dir : list (jsstring * Kind)) : Swept :=
  match files with
  | [] => {| printed := out; left_in_dir := dir; thrown := None |}
  | file :: rest =>
      if bool_decide (Some file = keep) then loop keep rest out dir
      else if startsWith file (js "node-napi") then
        let out' := out ++ [js "Deleting file: " ++ file] in
        match unlinkSync file dir with
        | inr dir' => loop keep rest out' dir'
        | inl e => {| printed := out'; left_in_dir := dir; thrown := Some e |}
        end
      else loop keep rest out dir
  end.

(** The script, given the value of [--target] and the output directory,
    which exists; [None] when the value is refused. *)
Definition script (value : jsstring) (outDir : list (jsstring * Kind)) : option Swept :=
  match parse_target value with
  | None => None
  | Some target => Some (loop (binary_of target targetMapping) (map fst outDir) [] outDir)
  end.

(** Whether the loop calls [unlinkSync] on a name. *)
Definition deletes (keep : option jsstring) (file : jsstring) : bool :=
  negb (bool_decide (Some file = keep)) && startsWith file (js "node-napi").

(** Every entry on which the loop calls [unlinkSync] is a file that can
    be removed. *)
Definition all_files (keep : option jsstring) (dir : list (jsstring * Kind)) : bool :=
  forallb (fun e => implb (deletes keep e.1)
                          match e.2 with File => true | _ => false end) dir.

(** The error of [unlinkSync] on an entry that is not such a file. *)
Definition refusal (kind : Kind) : option FsError :=
  match kind with
  | File => None
  | Directory => Some EISDIR
  | Protected => Some EACCES
  end.

(** A directory with the binaries of two platforms among other entries. *)
Definition sample_dir : list (jsstring * Kind) :=
  [(js "extension.js", File); (js "node-napi.linux-x64-gnu.node", File);
   (js "assets", Directory); (js "node-napi.darwin-arm64.node", File);
   (js "node-napi.txt", File)].

(** Entries listed before and after a directory whose name starts with
    [node-napi]. *)
Definition listed_before : list (jsstring * Kind) :=
  [(js "extension.js", File); (js "node-napi.darwin-arm64.node", File)].

Definition listed_after : list (jsstring * Kind) :=
  [(js "node-napi.win32-x64-msvc.node", File)].

End BuildScript.

(* ===================================================================== *)
(** * Properties *)
(* ===================================================================== *)

(** ** Strings: what [QuoteJSONString] writes, [parse_chars] reads back *)

Module JsFacts.
Import Js.

Ltac ncases :=
  repeat match goal with
  | |- context [(?a =? ?b)%N] => destruct (N.eqb_spec a b); try subst a
  | |- context [(?a <=? ?b)%N] => destruct (N.leb_spec a b)
  | |- context [(?a <? ?b)%N] => destruct (N.ltb_spec a b)
  | H : context [(?a =? ?b)%N] |- _ => destruct (N.eqb_spec a b); try subst a
  | H : context [(?a <=? ?b)%N] |- _ => destruct (N.leb_spec a b)
  | H : context [(?a <? ?b)%N] |- _ => destruct (N.ltb_spec a b)
  end.

Lemma hexval_hexdigit d : (d < 16)%N -> hexval (hexdigit d) = Some d.
Proof.
  intros Hd. unfold hexval, hexdigit.
  ncases; simpl; try lia; f_equal; lia.
Qed.

Lemma hex_digits_value c :
  (c < 65536)%N ->
  (4096 * (c / 4096 mod 16) + 256 * (c / 256 mod 16)
   + 16 * (c / 16 mod 16) + c mod 16)%N = c.
Proof.
  intros Hc.
  pose proof (N.div_mod c 16 ltac:(lia)) as H0.
  pose proof (N.div_mod (c / 16) 16 ltac:(lia)) as H1.
  pose proof (N.div_mod (c / 256) 16 ltac:(lia)) as H2.
  assert (E1 : (c / 256 = c / 16 / 16)%N) by (rewrite N.Div0.div_div; reflexivity).
  assert (E2 : (c / 4096 = c / 256 / 16)%N) by (rewrite N.Div0.div_div; reflexivity).
  assert (E3 : (c / 4096 < 16)%N) by (apply N.Div0.div_lt_upper_bound; lia).
  rewrite (N.mod_small (c / 4096) 16) by exact E3.
  rewrite E2. rewrite E1 in *. lia.
Qed.

Lemma parse_chars_hex c r :
  wf_unit c ->
  parse_chars (92 :: 117 :: hex4 c ++ r)%N = cons_unit c (parse_chars r).
Proof.
  intros Hc. unfold hex4. cbn [app parse_chars].
  change (92 =? 34)%N with false. change (92 =? 92)%N with true.
  change (117 =? 117)%N with true. cbv iota.
  rewrite !hexval_hexdigit by (apply N.mod_lt; lia).
  rewrite hex_digits_value by exact Hc. reflexivity.
Qed.

Lemma parse_chars_plain c r :
  c <> 34%N -> c <> 92%N -> (32 <= c)%N ->
  parse_chars (c :: r) = cons_unit c (parse_chars r).
Proof.
  intros H1 H2 H3. cbn [parse_chars]. ncases; try lia; reflexivity.
Qed.

Lemma parse_chars_escape_unit c r :
  wf_unit c ->
  parse_chars (escape_unit c ++ r) = cons_unit c (parse_chars r).
Proof.
  intros Hc. unfold escape_unit.
  destruct (N.eqb_spec c 8); [subst; reflexivity|].
  destruct (N.eqb_spec c 9); [subst; reflexivity|].
  destruct (N.eqb_spec c 10); [subst; reflexivity|].
  destruct (N.eqb_spec c 12); [subst; reflexivity|].
  destruct (N.eqb_spec c 13); [subst; reflexivity|].
  destruct (N.eqb_spec c 34); [subst; reflexivity|].
  destruct (N.eqb_spec c 92); [subst; reflexivity|].
  destruct ((c <? 32)%N || isLeadingSurrogate c || isTrailingSurrogate c) eqn:E.
  - apply parse_chars_hex, Hc.
  - apply orb_false_elim in E as [E _]. apply orb_false_elim in E as [E _].
    apply N.ltb_ge in E. apply parse_chars_plain; assumption.
Qed.

Lemma surrogate_plain c :
  isLeadingSurrogate c || isTrailingSurrogate c = true ->
  c <> 34%N /\ c <> 92%N /\ (32 <= c)%N.
Proof.
  unfold isLeadingSurrogate, isTrailingSurrogate. intros H.
  apply orb_true_iff in H as [H|H]; apply andb_true_iff in H as [H _];
    apply N.leb_le in H; lia.
Qed.

(** The characters of a quoted string and its closing quote parse back to
    the string, whatever follows. *)
Lemma parse_chars_quote s rest :
  wf_string s -> parse_chars (quote_units s ++ 34%N :: rest) = Some (s, rest).
Proof.
  remember (length s) as n eqn:Hn. revert s Hn.
  induction n as [n IH] using lt_wf_ind. intros s Hn Hs.
  destruct s as [|c s']; [reflexivity|].
  apply Forall_cons_1 in Hs as [Hc Hs'].
  assert (Hone : parse_chars ((escape_unit c ++ quote_units s') ++ 34%N :: rest)
                 = Some (c :: s', rest)).
  { rewrite <- app_assoc, parse_chars_escape_unit by exact Hc.
    rewrite (IH (length s')) by (simpl in Hn; auto; lia). reflexivity. }
  cbn [quote_units]. destruct (isLeadingSurrogate c) eqn:Elead; [|exact Hone].
  destruct s' as [|d s''].
  { cbn [quote_units] in Hone. rewrite app_nil_r in Hone. exact Hone. }
  destruct (isTrailingSurrogate d) eqn:Etrail; [|exact Hone].
  apply Forall_cons_1 in Hs' as [Hd Hs''].
  destruct (surrogate_plain c) as (? & ? & ?); [rewrite Elead; reflexivity|].
  destruct (surrogate_plain d) as (? & ? & ?); [rewrite Etrail; apply orb_true_r|].
  cbn [app]. rewrite !parse_chars_plain by assumption.
  rewrite (IH (length s'')) by (simpl in Hn; auto; lia). reflexivity.
Qed.

(** ** Numbers: decimal digits and back *)

Lemma digits_fuel_S f n :
  digits_fuel (S f) n =
  if (n <? 10)%N then [48 + n]%N else digits_fuel f (n / 10)%N ++ [48 + n mod 10]%N.
Proof. reflexivity. Qed.

Lemma digits_fuel_spec f n :
  (n < 2 ^ N.of_nat f)%N ->
  Forall (fun c => is_digit c = true) (digits_fuel (S f) n) /\
  digits_value (digits_fuel (S f) n) = n /\
  exists c t, digits_fuel (S f) n = c :: t /\ ((0 < n)%N -> c <> 48%N).
Proof.
  revert n. induction f as [|f IH]; intros n Hn.
  - assert (n = 0%N) by (simpl in Hn; lia). subst n.
    repeat split; [repeat constructor|]. exists 48%N, []. split; [reflexivity|lia].
  - rewrite (digits_fuel_S (S f)). destruct (N.ltb_spec n 10) as [Hlt|Hge].
    + repeat split.
      * constructor; [|constructor]. unfold is_digit. ncases; try lia; reflexivity.
      * unfold digits_value. simpl fold_left. lia.
      * exists (48 + n)%N, []. split; [reflexivity|lia].
    + assert (Hq : (n / 10 < 2 ^ N.of_nat f)%N).
      { apply N.Div0.div_lt_upper_bound.
        rewrite Nat2N.inj_succ, N.pow_succ_r' in Hn. lia. }
      destruct (IH _ Hq) as (Hall & Hval & c & t & Hhd & Hnz).
      pose proof (N.mod_lt n 10 ltac:(lia)) as Hm.
      pose proof (N.div_mod n 10 ltac:(lia)) as Hdm.
      set (q := (n / 10)%N) in *. set (m := (n mod 10)%N) in *.
      clearbody q m.
      repeat split.
      * apply Forall_app. split; [exact Hall|].
        constructor; [|constructor]. unfold is_digit. ncases; try lia; reflexivity.
      * unfold digits_value in *. rewrite fold_left_app, Hval. simpl fold_left.
        lia.
      * rewrite Hhd. exists c, (t ++ [(48 + m)%N]). split; [reflexivity|].
        intros _. apply Hnz. lia.
Qed.

Lemma digits_spec n :
  Forall (fun c => is_digit c = true) (digits n) /\
  digits_value (digits n) = n /\
  exists c t, digits n = c :: t /\ ((0 < n)%N -> c <> 48%N).
Proof.
  unfold digits. apply digits_fuel_spec. rewrite N2Nat.id. apply N.size_gt.
Qed.

Lemma delimited_not_digit c rest : delimited (c :: rest) -> is_digit c = false.
Proof. intros [->|[->| ->]]; reflexivity. Qed.

Lemma span_digits_app ds rest :
  Forall (fun c => is_digit c = true) ds -> delimited rest ->
  span_digits (ds ++ rest) = (ds, rest).
Proof.
  intros Hds Hrest. induction Hds as [|c ds Hc _ IH].
  - destruct rest as [|c r]; [reflexivity|].
    simpl. rewrite (delimited_not_digit c r Hrest). reflexivity.
  - simpl. rewrite Hc, IH. reflexivity.
Qed.

Lemma scan_frac_delimited rest : delimited rest -> scan_frac rest = Some ([], rest).
Proof.
  destruct rest as [|c r]; [reflexivity|].
  intros [->|[->| ->]]; reflexivity.
Qed.

Lemma scan_exp_delimited rest : delimited rest -> scan_exp rest = Some ([], rest).
Proof.
  destruct rest as [|c r]; [reflexivity|].
  intros [->|[->| ->]]; reflexivity.
Qed.

Lemma scan_int_digits n rest :
  delimited rest -> scan_int (digits n ++ rest) = Some (digits n, rest).
Proof.
  intros Hrest. destruct (N.eq_dec n 0%N) as [->|Hn]; [reflexivity|].
  destruct (digits_spec n) as (Hall & _ & c & t & Hhd & Hnz).
  pose proof (span_digits_app _ _ Hall Hrest) as Hspan.
  rewrite Hhd in *. cbn [app scan_int] in *.
  destruct (N.eqb_spec c 48) as [->|_]; [exfalso; apply Hnz; [lia|reflexivity]|].
  apply Forall_cons_1 in Hall as [-> _]. rewrite Hspan. reflexivity.
Qed.

Lemma digits_head_not_minus n : exists c t, digits n = c :: t /\ (c =? 45)%N = false.
Proof.
  destruct (digits_spec n) as (Hall & _ & c & t & Hhd & _).
  exists c, t. split; [exact Hhd|].
  rewrite Hhd in Hall. apply Forall_cons_1 in Hall as [Hc _].
  unfold is_digit in Hc. apply andb_true_iff in Hc as [Hc _].
  apply N.leb_le in Hc. apply N.eqb_neq. lia.
Qed.

(** The digits of an integer parse back to it. *)
Lemma parse_number_NumberToString z rest :
  delimited rest ->
  parse_number (NumberToString z ++ rest) = Some (JNum z, rest).
Proof.
  intros Hrest. unfold NumberToString, parse_number.
  destruct (Z.ltb_spec z 0) as [Hneg|Hpos].
  - cbn [app]. change (45 =? 45)%N with true. cbv iota.
    rewrite scan_int_digits, scan_frac_delimited, scan_exp_delimited by exact Hrest.
    destruct (digits_spec (Z.to_N (- z))) as (_ & -> & _).
    do 2 f_equal. f_equal. lia.
  - destruct (digits_head_not_minus (Z.to_N z)) as (c & t & Hhd & Hc).
    rewrite Hhd. cbn [app]. rewrite Hc. change (c :: t ++ rest) with ((c :: t) ++ rest).
    rewrite <- Hhd.
    rewrite scan_int_digits, scan_frac_delimited, scan_exp_delimited by exact Hrest.
    destruct (digits_spec (Z.to_N z)) as (_ & -> & _).
    do 2 f_equal. f_equal. lia.
Qed.

(** ** Values: [JSON.parse] inverts [JSON.stringify] *)

Lemma obj_set_fresh k v m :
  k ∉ map fst m -> obj_set k v m = m ++ [(k, v)].
Proof.
  induction m as [|[k' v'] m IH]; intros Hk; [reflexivity|].
  cbn [obj_set map fst] in *. apply not_elem_of_cons in Hk as [Hne Hk].
  rewrite bool_decide_eq_false_2 by exact Hne. rewrite IH by exact Hk. reflexivity.
Qed.

Lemma obj_of_members_fresh m acc :
  NoDup (map fst (acc ++ m)) ->
  fold_left (fun m kv => obj_set kv.1 kv.2 m) m acc = acc ++ m.
Proof.
  revert acc. induction m as [|[k v] m IH]; intros acc Hnd.
  - rewrite app_nil_r. reflexivity.
  - cbn [fold_left fst snd]. rewrite obj_set_fresh.
    + rewrite IH; rewrite <- app_assoc; [reflexivity|exact Hnd].
    + rewrite map_app in Hnd. apply NoDup_app in Hnd as (_ & Hdisj & _).
      intros Hin. apply (Hdisj k Hin). cbn. left.
Qed.

Lemma obj_of_members_NoDup m : NoDup (map fst m) -> obj_of_members m = m.
Proof. intros H. apply (obj_of_members_fresh m []). exact H. Qed.

Lemma wf_string_forallb s : forallb (fun c => c <? 65536)%N s = true -> wf_string s.
Proof.
  intros H. apply Forall_forall. intros c Hc.
  rewrite forallb_forall in H. apply N.ltb_lt, H, list_elem_of_In, Hc.
Qed.

Lemma parse_value_array f r :
  parse_value (S f) (91%N :: r) =
  match closes 93 r with
  | Some r' => POk (JArray []) r'
  | None =>
      match parse_elements (parse_value f) f r with
      | POk l r' => POk (JArray l) r'
      | PSyntax => PSyntax
      | PFuel => PFuel
      end
  end.
Proof. reflexivity. Qed.

Lemma parse_value_object f r :
  parse_value (S f) (123%N :: r) =
  match closes 125 r with
  | Some r' => POk (JObject []) r'
  | None =>
      match parse_members (parse_value f) f r with
      | POk ms r' => POk (JObject (obj_of_members ms)) r'
      | PSyntax => PSyntax
      | PFuel => PFuel
      end
  end.
Proof. reflexivity. Qed.

Lemma parse_value_string f r :
  parse_value (S f) (34%N :: r) =
  of_option (option_map (fun '(t, rest) => (JString t, rest)) (parse_chars r)).
Proof. reflexivity. Qed.

Lemma parse_value_number f c r :
  c = 45%N \/ is_digit c = true ->
  parse_value (S f) (c :: r) = of_option (parse_number (c :: r)).
Proof.
  intros [->|Hd]; [reflexivity|].
  unfold is_digit in Hd. apply andb_true_iff in Hd as [H1 H2].
  apply N.leb_le in H1. apply N.leb_le in H2.
  assert (Hws : is_ws c = false) by (unfold is_ws; ncases; try lia; reflexivity).
  cbn [parse_value skip_ws]. rewrite Hws.
  ncases; try lia. reflexivity.
Qed.

Lemma NumberToString_head n :
  exists h t, NumberToString n = h :: t /\ (h = 45%N \/ is_digit h = true).
Proof.
  unfold NumberToString. destruct (n <? 0)%Z.
  - eexists _, _. split; [reflexivity|]. left. reflexivity.
  - destruct (digits_spec (Z.to_N n)) as (Hall & _ & c & t & Hhd & _).
    exists c, t. split; [exact Hhd|]. right.
    rewrite Hhd in Hall. apply Forall_cons_1 in Hall as [Hc _]. exact Hc.
Qed.

Lemma JSON_stringify_head v :
  serializable v = true -> exists h t, JSON_stringify v = h :: t /\ opens h.
Proof.
  destruct v as [| [|] | n | lx | s | l | m]; intros Hs; try discriminate Hs.
  1-3, 5-7: eexists _, _; (split; [reflexivity|]); left; set_solver.
  destruct (NumberToString_head n) as (h & t & Hhd & [->|Hd]).
  - exists 45%N, t. split; [exact Hhd|]. left. set_solver.
  - exists h, t. split; [exact Hhd|]. right. exact Hd.
Qed.

Lemma closes_opens c h r : (c = 93 \/ c = 125)%N -> opens h -> closes c (h :: r) = None.
Proof.
  intros Hc [Hh|Hd].
  - repeat (apply elem_of_cons in Hh as [->|Hh]; [destruct Hc as [-> | ->]; reflexivity|]).
    apply elem_of_nil in Hh as [].
  - unfold is_digit in Hd. apply andb_true_iff in Hd as [H1 H2].
    apply N.leb_le in H1. apply N.leb_le in H2.
    assert (Hws : is_ws h = false) by (unfold is_ws; ncases; try lia; reflexivity).
    unfold closes. cbn [skip_ws]. rewrite Hws.
    destruct Hc as [-> | ->]; ncases; try lia; reflexivity.
Qed.

Lemma parse_elements_items pv f l :
  Forall (reads_back f pv) l -> l <> [] ->
  forall n rest,
    length (items_text JSON_stringify l ++ rest) < f ->
    length (items_text JSON_stringify l ++ rest) < n ->
    parse_elements pv n (items_text JSON_stringify l ++ rest) = POk l rest.
Proof.
  induction 1 as [|x l' Hx Hl' IH]; [congruence|]. intros _ n rest Hf Hn.
  destruct n as [|n]; [lia|].
  cbn [items_text parse_elements] in *. rewrite <- app_assoc in *.
  rewrite length_app in Hf, Hn. unfold reads_back in Hx.
  destruct l' as [|y l''].
  - rewrite Hx; [reflexivity| |right; left; reflexivity].
    rewrite length_app. exact Hf.
  - rewrite Hx; [|rewrite length_app; exact Hf|left; reflexivity].
    cbn [app skip_ws]. change (is_ws 44) with false. change (44 =? 44)%N with true.
    cbv iota. cbn [app length] in Hf, Hn.
    rewrite IH; [reflexivity|discriminate|lia|lia].
Qed.

Lemma parse_members_step pv n k r :
  wf_string k ->
  parse_members pv (S n) (34%N :: quote_units k ++ 34%N :: 58%N :: r) =
  match pv r with
  | POk v r3 =>
      match skip_ws r3 with
      | d :: r4 =>
          if (d =? 44)%N then
            match parse_members pv n r4 with
            | POk m r5 => POk ((k, v) :: m) r5
            | PSyntax => PSyntax
            | PFuel => PFuel
            end
          else if (d =? 125)%N then POk [(k, v)] r4
          else PSyntax
      | [] => PSyntax
      end
  | PSyntax => PSyntax
  | PFuel => PFuel
  end.
Proof.
  intros Hk. cbn [parse_members]. change (skip_ws (34%N :: ?t)) with (34%N :: t).
  change (34 =? 34)%N with true. cbv iota.
  rewrite parse_chars_quote by exact Hk.
  change (skip_ws (58%N :: r)) with (58%N :: r).
  change (58 =? 58)%N with true. reflexivity.
Qed.

Lemma members_text_cons k x m' rest :
  members_text JSON_stringify ((k, x) :: m') ++ rest =
  34%N :: quote_units k ++ 34%N :: 58%N :: JSON_stringify x ++
    match m' with
    | [] => 125%N :: rest
    | _ :: _ => 44%N :: members_text JSON_stringify m' ++ rest
    end.
Proof.
  cbn [members_text fst snd]. unfold QuoteJSONString.
  cbn [app]. rewrite <- !app_assoc. cbn [app]. rewrite <- !app_assoc.
  destruct m'; reflexivity.
Qed.

Lemma parse_members_members pv f m :
  Forall (fun kv => wf_string kv.1 /\ reads_back f pv kv.2) m -> m <> [] ->
  forall n rest,
    length (members_text JSON_stringify m ++ rest) < f ->
    length (members_text JSON_stringify m ++ rest) < n ->
    parse_members pv n (members_text JSON_stringify m ++ rest) = POk m rest.
Proof.
  induction 1 as [|[k x] m' [Hk Hx] Hm' IH]; [congruence|]. intros _ n rest Hf Hn.
  destruct n as [|n]; [lia|].
  rewrite members_text_cons in *. cbn [fst snd] in *.
  rewrite parse_members_step by exact Hk.
  cbn [length] in Hf, Hn. rewrite !length_app in Hf, Hn. cbn [length] in Hf, Hn.
  rewrite !length_app in Hf, Hn. unfold reads_back in Hx.
  destruct m' as [|kv m''].
  - rewrite Hx; [reflexivity| |right; right; reflexivity].
    rewrite length_app. lia.
  - rewrite Hx; [|rewrite length_app; lia|left; reflexivity].
    change (skip_ws (44%N :: ?t)) with (44%N :: t). change (44 =? 44)%N with true.
    cbv iota. cbn [length] in Hf, Hn.
    rewrite IH; [reflexivity|discriminate|lia|lia].
Qed.

Lemma parse_value_stringify v :
  serializable v = true -> forall fuel, reads_back fuel (parse_value fuel) v.
Proof.
  induction v as [| b | n | lx | s | l IH | m IH] using json_ind;
    intros Hs fuel rest Hlen Hrest; (destruct fuel as [|f]; [lia|]).
  - reflexivity.
  - destruct b; reflexivity.
  - cbn [JSON_stringify].
    destruct (NumberToString_head n) as (h & t & Hhd & Hh).
    rewrite Hhd. cbn [app]. rewrite parse_value_number by exact Hh.
    change (h :: t ++ rest) with ((h :: t) ++ rest). rewrite <- Hhd.
    rewrite parse_number_NumberToString by exact Hrest. reflexivity.
  - discriminate Hs.
  - cbn [JSON_stringify serializable] in *. unfold QuoteJSONString.
    cbn [app]. rewrite parse_value_string, <- app_assoc. cbn [app].
    rewrite parse_chars_quote by (apply wf_string_forallb, Hs). reflexivity.
  - cbn [JSON_stringify serializable app length] in *. rewrite parse_value_array.
    destruct l as [|x l']; [reflexivity|].
    assert (Hall : Forall (reads_back f (parse_value f)) (x :: l')).
    { rewrite forallb_forall in Hs. rewrite Forall_forall in IH |- *.
      intros y Hy. apply IH; [exact Hy|]. apply Hs, list_elem_of_In, Hy. }
    assert (Hx : serializable x = true) by (cbn [forallb] in Hs; apply andb_true_iff in Hs; tauto).
    destruct (JSON_stringify_head x Hx) as (h & t & Hhd & Hh).
    replace (closes 93 _) with (@None (list N)).
    2:{ cbn [items_text]. rewrite Hhd. cbn [app]. symmetry. apply closes_opens; auto. }
    rewrite (parse_elements_items _ f); [reflexivity|exact Hall|discriminate|lia|lia].
  - cbn [JSON_stringify serializable app length] in *. rewrite parse_value_object.
    apply andb_true_iff in Hs as [Hnd Hs]. apply bool_decide_eq_true_1 in Hnd.
    destruct m as [|[k x] m']; [reflexivity|].
    assert (Hall : Forall (fun kv => wf_string kv.1 /\ reads_back f (parse_value f) kv.2)
                          ((k, x) :: m')).
    { rewrite forallb_forall in Hs. rewrite Forall_forall in IH |- *.
      intros kv Hkv. specialize (Hs kv (proj1 (list_elem_of_In _ _) Hkv)).
      apply andb_true_iff in Hs as [Hk Hv].
      split; [apply wf_string_forallb, Hk|]. apply IH; assumption. }
    replace (closes 125 _) with (@None (list N)) by reflexivity.
    rewrite (parse_members_members _ f); [|exact Hall|discriminate|lia|lia].
    rewrite obj_of_members_NoDup by exact Hnd. reflexivity.
Qed.

(** [JSON.parse(JSON.stringify(v))] is [v]. *)
Lemma JSON_parse_stringify v :
  serializable v = true -> JSON_parse (JSON_stringify v) = Some v.
Proof.
  intros Hs. unfold JSON_parse.
  pose proof (parse_value_stringify v Hs (S (length (JSON_stringify v))) []) as H.
  rewrite app_nil_r in H. rewrite H; [reflexivity|lia|exact I].
Qed.

(** ** The fuel of [JSON_parse] is never used up *)

Lemma skip_ws_length s : length (skip_ws s) <= length s.
Proof.
  induction s as [|c s IH]; [reflexivity|].
  cbn [skip_ws]. destruct (is_ws c); cbn [length]; lia.
Qed.

Lemma skip_ws_cons s c r : skip_ws s = c :: r -> length r < length s.
Proof. intros H. pose proof (skip_ws_length s) as Hl. rewrite H in Hl. cbn in Hl. lia. Qed.

Lemma closes_length c s r : closes c s = Some r -> length r < length s.
Proof.
  unfold closes. destruct (skip_ws s) as [|c' r'] eqn:E; [discriminate|].
  destruct (c' =? c)%N; [|discriminate]. intros [= <-]. eapply skip_ws_cons, E.
Qed.

Lemma strip_prefix_length p s r : strip_prefix p s = Some r -> length r <= length s.
Proof.
  revert s. induction p as [|a p IH]; intros s H.
  - injection H as <-. reflexivity.
  - destruct s as [|b s]; [discriminate|]. cbn [strip_prefix] in H.
    destruct (a =? b)%N; [|discriminate]. apply IH in H. cbn [length]. lia.
Qed.

Lemma parse_chars_length s t r : parse_chars s = Some (t, r) -> length r < length s.
Proof.
  remember (length s) as n eqn:Hn. revert s t r Hn.
  induction n as [n IH] using lt_wf_ind. intros s t r Hn H.
  assert (Hcons : forall c s' t r,
             length s' < n -> cons_unit c (parse_chars s') = Some (t, r) ->
             length r < length s').
  { intros c s' t0 r0 Hlt Hc. unfold cons_unit in Hc.
    destruct (parse_chars s') as [[t1 r1]|] eqn:E; [|discriminate].
    injection Hc as _ <-. eapply (IH (length s')); [exact Hlt|reflexivity|exact E]. }
  destruct s as [|c s1]; [discriminate|]. cbn [parse_chars length] in *.
  destruct (c =? 34)%N; [injection H as _ <-; lia|].
  destruct (c =? 92)%N.
  - destruct s1 as [|e s2]; [discriminate|]. cbn [length] in *.
    destruct (e =? 117)%N.
    + destruct s2 as [|h1 [|h2 [|h3 [|h4 s3]]]]; try discriminate.
      cbn [length] in *.
      destruct (hexval h1), (hexval h2), (hexval h3), (hexval h4); try discriminate.
      apply Hcons in H; lia.
    + destruct (unescape e); [|discriminate]. apply Hcons in H; lia.
  - destruct (c <? 32)%N; [discriminate|]. apply Hcons in H; lia.
Qed.

Lemma span_digits_length s ds r : span_digits s = (ds, r) -> length r <= length s.
Proof.
  revert ds r. induction s as [|c s IH]; intros ds r H; cbn [span_digits] in H.
  - injection H as _ <-. reflexivity.
  - destruct (is_digit c).
    + destruct (span_digits s) as [ds' r'] eqn:E. injection H as _ <-.
      specialize (IH _ _ eq_refl). cbn [length]. lia.
    + injection H as _ <-. reflexivity.
Qed.

Lemma scan_int_length s ds r : scan_int s = Some (ds, r) -> length r < length s.
Proof.
  destruct s as [|c s']; [discriminate|]. cbn [scan_int].
  destruct (c =? 48)%N; [intros [= _ <-]; cbn; lia|].
  destruct (is_digit c) eqn:Hd; [|discriminate].
  cbn [span_digits]. rewrite Hd. destruct (span_digits s') as [ds' r'] eqn:E.
  intros [= _ <-]. apply span_digits_length in E. cbn [length]. lia.
Qed.

Lemma scan_frac_length s ds r : scan_frac s = Some (ds, r) -> length r <= length s.
Proof.
  destruct s as [|c s']; [intros [= _ <-]; reflexivity|]. cbn [scan_frac].
  destruct (c =? 46)%N; [|intros [= _ <-]; reflexivity].
  destruct s' as [|d s'']; [discriminate|].
  destruct (is_digit d); [|discriminate].
  destruct (span_digits (d :: s'')) as [ds' r'] eqn:E.
  intros [= _ <-]. apply span_digits_length in E. cbn [length] in *. lia.
Qed.

Lemma scan_exp_length s ds r : scan_exp s = Some (ds, r) -> length r <= length s.
Proof.
  destruct s as [|c s']; [intros [= _ <-]; reflexivity|]. cbn [scan_exp].
  destruct ((c =? 101)%N || (c =? 69)%N); [|intros [= _ <-]; reflexivity].
  destruct s' as [|g s''].
  - discriminate.
  - destruct ((g =? 43)%N || (g =? 45)%N).
    + destruct s'' as [|d s3]; [discriminate|].
      destruct (is_digit d); [|discriminate].
      destruct (span_digits (d :: s3)) as [ds' r'] eqn:E.
      intros [= _ <-]. apply span_digits_length in E. cbn [length] in *. lia.
    + destruct (is_digit g); [|discriminate].
      destruct (span_digits (g :: s'')) as [ds' r'] eqn:E.
      intros [= _ <-]. apply span_digits_length in E. cbn [length] in *. lia.
Qed.

Lemma parse_number_length s v r : parse_number s = Some (v, r) -> length r < length s.
Proof.
  unfold parse_number.
  set (p := match s with
            | [] => (false, s)
            | c :: r0 => if (c =? 45)%N then (true, r0) else (false, s)
            end).
  assert (Hp : length p.2 <= length s).
  { subst p. destruct s as [|c r0]; [reflexivity|].
    destruct (c =? 45)%N; cbn [snd length]; lia. }
  destruct p as [neg s1]. cbn [snd] in Hp.
  destruct (scan_int s1) as [[ip s2]|] eqn:E1; [|discriminate].
  destruct (scan_frac s2) as [[fp s3]|] eqn:E2; [|discriminate].
  destruct (scan_exp s3) as [[ep s4]|] eqn:E3; [|discriminate].
  apply scan_int_length in E1. apply scan_frac_length in E2. apply scan_exp_length in E3.
  destruct fp, ep; intros [= _ <-]; lia.
Qed.

Lemma parse_elements_shortens pv n : shortens pv -> shortens (parse_elements pv n).
Proof.
  intros Hpv. induction n as [|n IH]; intros s l r H; [discriminate|].
  cbn [parse_elements] in H.
  destruct (pv s) as [v r0| |] eqn:E; try discriminate. apply Hpv in E.
  destruct (skip_ws r0) as [|c r1] eqn:Ews; [discriminate|]. apply skip_ws_cons in Ews.
  destruct (c =? 44)%N.
  - destruct (parse_elements pv n r1) as [l' r2| |] eqn:E'; try discriminate.
    apply IH in E'. injection H as _ <-. lia.
  - destruct (c =? 93)%N; [|discriminate]. injection H as _ <-. lia.
Qed.

Lemma parse_members_shortens pv n : shortens pv -> shortens (parse_members pv n).
Proof.
  intros Hpv. induction n as [|n IH]; intros s m r H; [discriminate|].
  cbn [parse_members] in H.
  destruct (skip_ws s) as [|q r0] eqn:E0; [discriminate|]. apply skip_ws_cons in E0.
  destruct (q =? 34)%N; [|discriminate].
  destruct (parse_chars r0) as [[k r1]|] eqn:E1; [|discriminate].
  apply parse_chars_length in E1.
  destruct (skip_ws r1) as [|c r2] eqn:E2; [discriminate|]. apply skip_ws_cons in E2.
  destruct (c =? 58)%N; [|discriminate].
  destruct (pv r2) as [v r3| |] eqn:E3; try discriminate. apply Hpv in E3.
  destruct (skip_ws r3) as [|d r4] eqn:E4; [discriminate|]. apply skip_ws_cons in E4.
  destruct (d =? 44)%N.
  - destruct (parse_members pv n r4) as [m' r5| |] eqn:E5; try discriminate.
    apply IH in E5. injection H as _ <-. lia.
  - destruct (d =? 125)%N; [|discriminate]. injection H as _ <-. lia.
Qed.

Lemma parse_value_shortens fuel : shortens (parse_value fuel).
Proof.
  induction fuel as [|f IH]; intros s v r H; [discriminate|].
  cbn [parse_value] in H.
  destruct (skip_ws s) as [|c r0] eqn:E0; [discriminate|].
  pose proof (skip_ws_length s) as Hs. rewrite E0 in Hs. cbn [length] in Hs.
  destruct (c =? 123)%N.
  { destruct (closes 125 r0) as [r'|] eqn:Ec.
    - apply closes_length in Ec. injection H as _ <-. lia.
    - destruct (parse_members (parse_value f) f r0) as [ms r'| |] eqn:Em; try discriminate.
      apply parse_members_shortens in Em; [|exact IH]. injection H as _ <-. lia. }
  destruct (c =? 91)%N.
  { destruct (closes 93 r0) as [r'|] eqn:Ec.
    - apply closes_length in Ec. injection H as _ <-. lia.
    - destruct (parse_elements (parse_value f) f r0) as [ms r'| |] eqn:Em; try discriminate.
      apply parse_elements_shortens in Em; [|exact IH]. injection H as _ <-. lia. }
  destruct (c =? 34)%N.
  { destruct (parse_chars r0) as [[t r']|] eqn:Ec; [|discriminate].
    apply parse_chars_length in Ec. injection H as _ <-. lia. }
  assert (Hlit : forall p w, literal p w r0 = POk v r -> length r < length s).
  { intros p w Hl. unfold literal in Hl.
    destruct (strip_prefix p r0) as [r'|] eqn:Ep; [|discriminate].
    apply strip_prefix_length in Ep. injection Hl as _ <-. lia. }
  destruct (c =? 116)%N; [eapply Hlit, H|].
  destruct (c =? 102)%N; [eapply Hlit, H|].
  destruct (c =? 110)%N; [eapply Hlit, H|].
  unfold of_option in H.
  destruct (parse_number (c :: r0)) as [[v' r']|] eqn:En; [|discriminate].
  apply parse_number_length in En. injection H as _ <-. cbn [length] in En. lia.
Qed.

Lemma parse_elements_fuelled pv b n :
  shortens pv -> fuelled b pv ->
  forall s, length s < b -> length s < n -> parse_elements pv n s <> PFuel.
Proof.
  intros Hsh Hpv. induction n as [|n IH]; intros s Hb Hn; [lia|].
  cbn [parse_elements]. specialize (Hpv s Hb).
  destruct (pv s) as [v r0| |] eqn:E; try congruence. apply Hsh in E.
  destruct (skip_ws r0) as [|c r1] eqn:Ews; [discriminate|]. apply skip_ws_cons in Ews.
  destruct (c =? 44)%N.
  - specialize (IH r1 ltac:(lia) ltac:(lia)).
    destruct (parse_elements pv n r1); congruence.
  - destruct (c =? 93)%N; discriminate.
Qed.

Lemma parse_members_fuelled pv b n :
  shortens pv -> fuelled b pv ->
  forall s, length s < b -> length s < n -> parse_members pv n s <> PFuel.
Proof.
  intros Hsh Hpv. induction n as [|n IH]; intros s Hb Hn; [lia|].
  cbn [parse_members].
  destruct (skip_ws s) as [|q r0] eqn:E0; [discriminate|]. apply skip_ws_cons in E0.
  destruct (q =? 34)%N; [|discriminate].
  destruct (parse_chars r0) as [[k r1]|] eqn:E1; [|discriminate].
  apply parse_chars_length in E1.
  destruct (skip_ws r1) as [|c r2] eqn:E2; [discriminate|]. apply skip_ws_cons in E2.
  destruct (c =? 58)%N; [|discriminate].
  specialize (Hpv r2 ltac:(lia)).
  destruct (pv r2) as [v r3| |] eqn:E3; try congruence. apply Hsh in E3.
  destruct (skip_ws r3) as [|d r4] eqn:E4; [discriminate|]. apply skip_ws_cons in E4.
  destruct (d =? 44)%N.
  - specialize (IH r4 ltac:(lia) ltac:(lia)).
    destruct (parse_members pv n r4); congruence.
  - destruct (d =? 125)%N; discriminate.
Qed.

(** With more fuel than characters, [parse_value] ends with a value or a
    syntax error. *)
Lemma parse_value_fuel fuel : fuelled fuel (parse_value fuel).
Proof.
  induction fuel as [|f IH]; intros s Hs; [lia|].
  cbn [parse_value].
  destruct (skip_ws s) as [|c r0] eqn:E0; [discriminate|]. apply skip_ws_cons in E0.
  destruct (c =? 123)%N.
  { destruct (closes 125 r0); [discriminate|].
    pose proof (parse_members_fuelled _ f f (parse_value_shortens f) IH r0
                  ltac:(lia) ltac:(lia)).
    destruct (parse_members (parse_value f) f r0); congruence. }
  destruct (c =? 91)%N.
  { destruct (closes 93 r0); [discriminate|].
    pose proof (parse_elements_fuelled _ f f (parse_value_shortens f) IH r0
                  ltac:(lia) ltac:(lia)).
    destruct (parse_elements (parse_value f) f r0); congruence. }
  destruct (c =? 34)%N; [destruct (parse_chars r0) as [[? ?]|]; discriminate|].
  assert (Hlit : forall p w, literal p w r0 <> PFuel).
  { intros p w. unfold literal. destruct (strip_prefix p r0); discriminate. }
  destruct (c =? 116)%N; [apply Hlit|].
  destruct (c =? 102)%N; [apply Hlit|].
  destruct (c =? 110)%N; [apply Hlit|].
  destruct (parse_number (c :: r0)) as [[? ?]|]; discriminate.
Qed.

(** [JSON_parse] answers [None] only on a syntax error: the parse of the
    value, at the fuel [JSON_parse] gives it, is never cut short. *)
Lemma JSON_parse_total text : parse_value (S (length text)) text <> PFuel.
Proof. apply parse_value_fuel. lia. Qed.

End JsFacts.

(** ** The bus *)

Module EventsFacts.
Import Js Host Events JsFacts.

(** Projections of updated windows. *)
Ltac fields :=
  cbn [secrets online inbox reads instance objects subscriptions trace
       set_secrets set_online set_inbox set_reads set_instance set_objects
       set_subscriptions observe fst snd] in *.

(** *** Traces *)

Lemma dispatches_app t1 t2 : dispatches (t1 ++ t2) = dispatches t1 ++ dispatches t2.
Proof. apply omap_app. Qed.

Lemma since_app w w' t : trace w' = trace w ++ t -> since w w' = t.
Proof. intros H. unfold since. rewrite H. apply drop_app_length. Qed.

Lemma since_refl w w' : trace w' = trace w -> since w w' = [].
Proof. intros H. apply since_app. rewrite app_nil_r. exact H. Qed.

Lemma since_received w t q i :
  since w (observe t (set_reads q (set_inbox i w))) = t.
Proof. apply since_app. reflexivity. Qed.

Lemma dispatches_emitter_fire ls v :
  dispatches (emitter_fire ls v) = map (fun l => (lid l, v)) ls.
Proof.
  induction ls as [|l ls IH]; [reflexivity|].
  cbn [emitter_fire map]. change (Invoked (lid l) v :: ?t) with ([Invoked (lid l) v] ++ t).
  rewrite !dispatches_app, IH. destruct (throws l v); reflexivity.
Qed.

Lemma emitter_fire_error ls v l :
  l ∈ ls -> throws l v = true -> ListenerError (lid l) ∈ emitter_fire ls v.
Proof.
  intros Hin Hthrow. induction ls as [|l' ls IH]; [apply elem_of_nil in Hin as []|].
  cbn [emitter_fire]. apply elem_of_cons in Hin as [<-|Hin].
  - rewrite Hthrow. set_solver.
  - specialize (IH Hin). set_solver.
Qed.

Lemma emitter_fire_quiet ls v o :
  o ∈ emitter_fire ls v -> (exists l, o = Invoked l v) \/ (exists l, o = ListenerError l).
Proof.
  induction ls as [|l ls IH]; cbn [emitter_fire]; [intros H; apply elem_of_nil in H as []|].
  intros H. apply elem_of_cons in H as [->|H]; [left; eauto|].
  apply elem_of_app in H as [H|H]; [|auto].
  destruct (throws l v); [|apply elem_of_nil in H as []].
  apply list_elem_of_singleton in H as ->. right; eauto.
Qed.

Lemma observe_observe t1 t2 w : observe t2 (observe t1 w) = observe (t1 ++ t2) w.
Proof. unfold observe. cbn. rewrite app_assoc. reflexivity. Qed.

(** *** The receive path, one listener *)

Lemma deliver_listening w this key rest :
  subscriptions w = [this] -> inbox w = key :: rest ->
  deliver w = onDidChange_listener this key (set_inbox rest w).
Proof. intros Hs Hi. unfold deliver. rewrite Hi, Hs. reflexivity. Qed.

Lemma deliver_foreign w key rest :
  inbox w = key :: rest -> startsWith key EVENT_KEY_PREFIX = false ->
  deliver w = set_inbox rest w.
Proof.
  intros Hi Hp. unfold deliver. rewrite Hi.
  generalize (set_inbox rest w) as w0.
  induction (subscriptions w) as [|this ss IH]; intros w0; [reflexivity|].
  cbn [fold_left]. unfold onDidChange_listener at 2. rewrite Hp. apply IH.
Qed.

Lemma resume_at w i this key :
  reads w !! i = Some (this, key) ->
  resume i w = onDidChange_resume this key (set_reads (delete i (reads w)) w).
Proof. intros Hr. unfold resume. rewrite Hr. reflexivity. Qed.

Lemma resume_none w i : reads w !! i = None -> resume i w = w.
Proof. intros Hr. unfold resume. rewrite Hr. reflexivity. Qed.

Lemma resume_head w this key rest :
  reads w = (this, key) :: rest ->
  resume 0 w = onDidChange_resume this key (set_reads rest w).
Proof. intros Hr. unfold resume. rewrite Hr. reflexivity. Qed.

Lemma resume_value_at w i this key text :
  reads w !! i = Some (this, key) -> online w = true ->
  secrets w !! key = Some text -> text <> [] ->
  resume i w =
  match JSON_parse text with
  | Some v =>
      observe (Logged Debug (js "Event payload: " ++ text) ::
               emitter_fire (listeners w this) v) (set_reads (delete i (reads w)) w)
  | None =>
      observe [Logged Debug (js "Event payload: " ++ text); Unhandled SyntaxError]
              (set_reads (delete i (reads w)) w)
  end.
Proof.
  intros Hr Ho Hs Ht. rewrite (resume_at w i this key Hr).
  generalize (delete i (reads w)) as rest. intros rest.
  unfold onDidChange_resume, listeners.
  cbn [online secrets set_reads objects]. rewrite Ho, Hs.
  destruct text as [|c text]; [congruence|]. cbn [truthy].
  destruct (JSON_parse (c :: text)); [|apply observe_observe].
  destruct (objects (set_reads rest w) !! this) eqn:E; cbn [objects set_reads] in E;
    rewrite E.
  - apply observe_observe.
  - reflexivity.
Qed.

Lemma resume_value w this key text rest :
  reads w = (this, key) :: rest -> online w = true ->
  secrets w !! key = Some text -> text <> [] ->
  resume 0 w =
  match JSON_parse text with
  | Some v =>
      observe (Logged Debug (js "Event payload: " ++ text) ::
               emitter_fire (listeners w this) v) (set_reads rest w)
  | None =>
      observe [Logged Debug (js "Event payload: " ++ text); Unhandled SyntaxError]
              (set_reads rest w)
  end.
Proof.
  intros Hr Ho Hs Ht.
  rewrite (resume_value_at w 0 this key text) by (rewrite ?Hr; auto).
  rewrite Hr. reflexivity.
Qed.

Lemma resume_nothing w this key rest :
  reads w = (this, key) :: rest -> online w = true ->
  secrets w !! key = None \/ secrets w !! key = Some [] ->
  resume 0 w = set_reads rest w.
Proof.
  intros Hr Ho Hs. rewrite (resume_head w this key rest Hr). unfold onDidChange_resume.
  cbn [online secrets set_reads]. rewrite Ho.
  destruct Hs as [-> | ->]; reflexivity.
Qed.

Lemma deliver_prefixed w this key rest :
  subscriptions w = [this] -> inbox w = key :: rest ->
  startsWith key EVENT_KEY_PREFIX = true ->
  deliver w =
  set_reads (reads w ++ [(this, key)])
    (observe [Logged Debug (js "Event emitted: " ++ key); SecretGet key]
       (set_inbox rest w)).
Proof.
  intros Hs Hi Hp. rewrite (deliver_listening w this key rest Hs Hi).
  unfold onDidChange_listener. rewrite Hp. reflexivity.
Qed.

Lemma startsWith_app p s : startsWith (p ++ s) p = true.
Proof.
  induction p as [|a p IH]; [reflexivity|].
  cbn [app startsWith]. rewrite N.eqb_refl. exact IH.
Qed.

(** One notification from delivery to the end of its listener, in a
    window with one suspended listener at most. *)
Lemma receive_value w this key text rest :
  subscriptions w = [this] -> inbox w = key :: rest -> reads w = [] ->
  startsWith key EVENT_KEY_PREFIX = true -> online w = true ->
  secrets w !! key = Some text -> text <> [] ->
  resume 0 (deliver w) =
  observe
    ([Logged Debug (js "Event emitted: " ++ key); SecretGet key;
      Logged Debug (js "Event payload: " ++ text)] ++
     match JSON_parse text with
     | Some v => emitter_fire (listeners w this) v
     | None => [Unhandled SyntaxError]
     end)
    (set_reads [] (set_inbox rest w)).
Proof.
  intros Hs Hi Hr Hp Ho Hv Ht.
  rewrite (deliver_prefixed w this key rest Hs Hi Hp), Hr.
  erewrite resume_value; [|reflexivity|exact Ho|exact Hv|exact Ht].
  destruct (JSON_parse text); unfold observe, set_reads, set_inbox, listeners; cbn;
    rewrite <- app_assoc; reflexivity.
Qed.

Lemma listeners_event w this h :
  this < length (objects w) ->
  listeners (event this h w) this = listeners w this ++ [h].
Proof.
  intros Hlt. unfold listeners, event.
  destruct (lookup_lt_is_Some_2 _ _ Hlt) as [o Ho]. rewrite Ho.
  cbn [objects set_objects]. rewrite list_lookup_insert_eq by exact Hlt. reflexivity.
Qed.

Lemma listening_event w this h : listening w this -> listening (event this h w) this.
Proof.
  intros (Hi & Hs & Hlt & Hr). unfold event.
  destruct (objects w !! this); [|repeat split; assumption].
  repeat split; cbn; try assumption. rewrite length_insert. exact Hlt.
Qed.

Lemma filter_own_call (h : Listener) (v : json) (ls : list Listener) :
  lid h ∉ map lid ls ->
  filter (fun d => d.1 = lid h) (map (fun l => (lid l, v)) (ls ++ [h])) = [(lid h, v)].
Proof.
  induction ls as [|l ls IH]; intros Hfresh.
  - cbn. rewrite decide_True by reflexivity. reflexivity.
  - cbn [map app] in *. apply not_elem_of_cons in Hfresh as [Hne Hfresh].
    rewrite filter_cons_False by (cbn; congruence). apply IH, Hfresh.
Qed.

(** *** Publishing *)

Lemma fire_unfold e w :
  obj_get (js "toString") (payload e) = None ->
  fire e w =
  secrets_store (EVENT_KEY_PREFIX ++ name e) (JSON_stringify (envelope e))
    (observe [Logged Debug (js "Firing event: " ++ name e ++
                            js " with payload: " ++ js "[object Object]")] w).
Proof. intros H. unfold fire, ToString_object. rewrite H. reflexivity. Qed.

Lemma fire_resolved e w w' :
  fire e w = (Resolved, w') ->
  online w = true /\
  w' = set_inbox (inbox w ++ [EVENT_KEY_PREFIX ++ name e])
         (set_secrets (insert (EVENT_KEY_PREFIX ++ name e) (JSON_stringify (envelope e)))
            (observe [Logged Debug (js "Firing event: " ++ name e ++
                                    js " with payload: " ++ js "[object Object]");
                      SecretStore (EVENT_KEY_PREFIX ++ name e)
                                  (JSON_stringify (envelope e))] w)).
Proof.
  unfold fire, ToString_object.
  destruct (obj_get (js "toString") (payload e)); [discriminate|].
  unfold secrets_store. cbn [online observe].
  destruct (online w); [|discriminate].
  intros [= <-]. split; [reflexivity|].
  rewrite observe_observe. reflexivity.
Qed.

(** C1. After [fire] of a serializable envelope has resolved, the secret
    under the prefixed name holds a text that [JSON.parse] reads back as
    that envelope. *)
Theorem fire_round_trip (e : IEventPayload) (w w' : Window) :
  serializable (envelope e) = true ->
  fire e w = (Resolved, w') ->
  exists text,
    secrets w' !! (EVENT_KEY_PREFIX ++ name e) = Some text /\
    JSON_parse text = Some (envelope e).
Proof.
  intros Hs Hf. apply fire_resolved in Hf as [_ ->].
  exists (JSON_stringify (envelope e)). split.
  - cbn [secrets set_inbox set_secrets observe]. apply lookup_insert_eq.
  - apply JSON_parse_stringify, Hs.
Qed.

Lemma fire_round_trip_witness :
  exists text,
    secrets (fire Samples.providers (boot ∅ true)).2
      !! (EVENT_KEY_PREFIX ++ name Samples.providers) = Some text /\
    JSON_parse text = Some (envelope Samples.providers).
Proof.
  apply (fire_round_trip Samples.providers (boot ∅ true)); reflexivity.
Defined.

(** C9. When [fire] gets as far as [secrets.store] (the payload has no
    own [toString] to break the debug line), the store is called once.
    If the storage cannot be reached the promise of [fire] rejects with
    that failure, nothing is written and nothing is tried again. If it
    can, [fire] resolves while the notification is still undelivered and
    no listener has been called. *)
Theorem fire_store_outcome (e : IEventPayload) (w : Window) :
  obj_get (js "toString") (payload e) = None ->
  let key := EVENT_KEY_PREFIX ++ name e in
  let w' := (fire e w).2 in
  stores (since w w') = [(key, JSON_stringify (envelope e))] /\
  (online w = false ->
     (fire e w).1 = Rejected StoreUnavailable /\
     secrets w' = secrets w /\ inbox w' = inbox w /\ reads w' = reads w) /\
  (online w = true ->
     (fire e w).1 = Resolved /\
     inbox w' = inbox w ++ [key] /\ reads w' = reads w /\
     dispatches (since w w') = []).
Proof.
  intros Hts key w'. subst w'. rewrite (fire_unfold e w Hts).
  unfold secrets_store. rewrite observe_observe. cbn [online observe].
  destruct (online w); (split; [|split; [intros Ho|intros Ho]]); try discriminate Ho;
    cbn [fst snd]; try (erewrite since_app by reflexivity; reflexivity).
  all: repeat split; erewrite since_app by reflexivity; reflexivity.
Qed.

Lemma fire_store_outcome_witness :
  (fire Samples.providers (boot ∅ false)).1 = Rejected StoreUnavailable /\
  (fire Samples.providers (boot ∅ true)).1 = Resolved.
Proof.
  split.
  - apply (fire_store_outcome Samples.providers (boot ∅ false)); reflexivity.
  - apply (fire_store_outcome Samples.providers (boot ∅ true)); reflexivity.
Defined.

(** *** Receiving *)

(** C5. A notification whose key lacks the prefix changes nothing but the
    inbox: no listener is called, [secrets.get] is not called, nothing is
    logged. *)
Theorem foreign_key_ignored (w : Window) (key : jsstring) (rest : list jsstring) :
  inbox w = key :: rest ->
  startsWith key EVENT_KEY_PREFIX = false ->
  deliver w = set_inbox rest w /\
  since w (deliver w) = [] /\
  reads (deliver w) = reads w.
Proof.
  intros Hi Hp. rewrite (deliver_foreign w key rest Hi Hp).
  repeat split. apply since_refl. reflexivity.
Qed.

Lemma foreign_key_ignored_witness :
  let w := Samples.told (js "github.token") (js "secret") in
  since w (deliver w) = [] /\ reads (deliver w) = reads w.
Proof.
  apply (foreign_key_ignored (Samples.told (js "github.token") (js "secret"))
           (js "github.token") []); reflexivity.
Defined.

(** C10. When the value read again is absent or the empty string, the
    notification ends there: beyond the debug line and the read itself
    nothing happens, no listener is called and no promise is rejected,
    although the empty string is not JSON. *)
Theorem empty_value_dropped (w : Window) (this : nat) (key : jsstring)
    (rest : list jsstring) :
  subscriptions w = [this] -> inbox w = key :: rest -> reads w = [] ->
  startsWith key EVENT_KEY_PREFIX = true ->
  online w = true ->
  secrets w !! key = None \/ secrets w !! key = Some [] ->
  since w (resume 0 (deliver w)) =
    [Logged Debug (js "Event emitted: " ++ key); SecretGet key] /\
  dispatches (since w (resume 0 (deliver w))) = [] /\
  reads (resume 0 (deliver w)) = [] /\
  JSON_parse [] = None.
Proof.
  intros Hs Hi Hr Hp Ho Hv.
  rewrite (deliver_prefixed w this key rest Hs Hi Hp), Hr.
  erewrite resume_nothing; [|reflexivity|exact Ho|exact Hv].
  erewrite since_app by reflexivity. repeat split.
Qed.

Lemma empty_value_dropped_witness :
  let w := Samples.told (js "window.events.X") [] in
  dispatches (since w (resume 0 (deliver w))) = [].
Proof.
  apply (empty_value_dropped (Samples.told (js "window.events.X") []) 0
           (js "window.events.X") []); try reflexivity.
  right. reflexivity.
Defined.

(** The receive path after one [fire] in a quiet window. *)
Lemma receive_fired w this e w1 :
  listening w this -> quiet w ->
  serializable (envelope e) = true ->
  fire e w = (Resolved, w1) ->
  resume 0 (deliver w1) =
  observe
    ([Logged Debug (js "Event emitted: " ++ EVENT_KEY_PREFIX ++ name e);
      SecretGet (EVENT_KEY_PREFIX ++ name e);
      Logged Debug (js "Event payload: " ++ JSON_stringify (envelope e))] ++
     emitter_fire (listeners w this) (envelope e))
    (set_reads [] (set_inbox [] w1)).
Proof.
  intros (Hi & Hs & Hlt & _) [Hin Hrd] Hser Hf.
  apply fire_resolved in Hf as [Ho ->].
  erewrite receive_value with (this := this) (text := JSON_stringify (envelope e)).
  - rewrite JSON_parse_stringify by exact Hser. reflexivity.
  - exact Hs.
  - cbn. rewrite Hin. reflexivity.
  - exact Hrd.
  - apply startsWith_app.
  - exact Ho.
  - cbn. apply lookup_insert_eq.
  - discriminate.
Qed.

(** C6, as stated, fails: a change notification for the same key, raised
    by a write that another window made before the handler subscribed, is
    still waiting when the envelope is fired. Each of the two
    notifications makes the listener read the key again and dispatch
    what it finds: the handler is called twice with the fired envelope,
    although since it subscribed the key has been written once, by
    [fire]. *)
Lemma single_dispatch_twice :
  let key := js "window.events.X" in
  let w0 := remote_store key (JSON_stringify (envelope (Samples.X 1)))
              (run [Access] (boot ∅ true)) in
  let w1 := event 0 (Samples.calm 7) w0 in
  let w2 := run [Deliver; Resume 0; Deliver; Resume 0] (fire (Samples.X 2) w1).2 in
  (fire (Samples.X 2) w1).1 = Resolved /\
  stores (since w0 w2) = [(key, JSON_stringify (envelope (Samples.X 2)))] /\
  dispatches (since w0 w2) =
    [(7, envelope (Samples.X 2)); (7, envelope (Samples.X 2))] /\
  length (filter (fun d => d.1 = 7) (dispatches (since w0 w2))) <> 1.
Proof. vm_compute. repeat split. discriminate. Qed.

(** C6, amended. A handler is subscribed in a window where no
    notification is waiting and no listener is suspended; then one
    envelope is fired, the promise of [fire] resolves, and the
    notification is handled with nothing in between: every listener is
    called once with the envelope, in registration order, the new handler
    last, and exactly one call is made to it. *)
Theorem single_dispatch (w0 : Window) (this : nat) (h : Listener)
    (e : IEventPayload) (w1 : Window) :
  listening w0 this -> quiet w0 ->
  serializable (envelope e) = true ->
  lid h ∉ map lid (listeners w0 this) ->
  fire e (event this h w0) = (Resolved, w1) ->
  let w2 := resume 0 (deliver w1) in
  dispatches (since w0 w2) =
    map (fun l => (lid l, envelope e)) (listeners w0 this ++ [h]) /\
  filter (fun d => d.1 = lid h) (dispatches (since w0 w2)) = [(lid h, envelope e)] /\
  quiet w2.
Proof.
  intros Hl Hq Hser Hfresh Hf w2. subst w2.
  assert (Hq' : quiet (event this h w0)).
  { unfold event. destruct (objects w0 !! this); exact Hq. }
  rewrite (receive_fired (event this h w0) this e w1
             (listening_event _ _ h Hl) Hq' Hser Hf).
  apply fire_resolved in Hf as [_ ->].
  rewrite listeners_event by apply Hl.
  assert (Htr : trace (event this h w0) = trace w0).
  { unfold event. destruct (objects w0 !! this); reflexivity. }
  erewrite since_app; [|fields; rewrite Htr, <- !app_assoc; reflexivity].
  rewrite !dispatches_app, dispatches_emitter_fire. cbn [dispatches omap app].
  repeat split. apply filter_own_call, Hfresh.
Qed.

Lemma single_dispatch_witness :
  let w0 := run [Access] (boot ∅ true) in
  let w1 := (fire Samples.providers (event 0 (Samples.calm 7) w0)).2 in
  dispatches (since w0 (resume 0 (deliver w1))) = [(7, envelope Samples.providers)].
Proof.
  apply (single_dispatch (run [Access] (boot ∅ true)) 0 (Samples.calm 7)
           Samples.providers
           (fire Samples.providers (event 0 (Samples.calm 7) (run [Access] (boot ∅ true)))).2).
  - repeat split; [cbn; lia|constructor].
  - split; reflexivity.
  - reflexivity.
  - cbn. apply not_elem_of_nil.
  - vm_compute. reflexivity.
Defined.

(** C7. When a decoded value is dispatched, the listeners are called in
    the order in which [event] registered them, each with that value; a
    listener that throws is reported and those after it are called all
    the same. *)
Theorem subscriber_isolation (w : Window) (this : nat) (key text : jsstring)
    (v : json) (rest : list jsstring) :
  subscriptions w = [this] -> inbox w = key :: rest -> reads w = [] ->
  startsWith key EVENT_KEY_PREFIX = true -> online w = true ->
  secrets w !! key = Some text -> text <> [] -> JSON_parse text = Some v ->
  let w' := resume 0 (deliver w) in
  dispatches (since w w') = map (fun l => (lid l, v)) (listeners w this) /\
  (forall l, l ∈ listeners w this -> throws l v = true ->
             ListenerError (lid l) ∈ since w w') /\
  (forall h, this < length (objects w) ->
             listeners (event this h w) this = listeners w this ++ [h]).
Proof.
  intros Hs Hi Hr Hp Ho Hv Ht Hj w'. subst w'.
  rewrite (receive_value w this key text rest Hs Hi Hr Hp Ho Hv Ht), Hj.
  rewrite since_received. split; [|split].
  - rewrite dispatches_app, dispatches_emitter_fire. reflexivity.
  - intros l Hl Hthrow. apply elem_of_app. right. apply emitter_fire_error; assumption.
  - intros h Hlt. apply listeners_event, Hlt.
Qed.

Lemma subscriber_isolation_witness :
  let v := JObject [(js "name", JString (js "X")); (js "payload", JObject [])] in
  dispatches (since Samples.mixed (resume 0 (deliver Samples.mixed))) = [(1, v); (2, v)].
Proof.
  apply (subscriber_isolation Samples.mixed 0 (js "window.events.X")
           (jsq "{'name':'X','payload':{}}")
           (JObject [(js "name", JString (js "X")); (js "payload", JObject [])]) []);
    try reflexivity.
  discriminate.
Defined.

(** C3, as stated, fails: a text without [name] is decoded and handed to
    the listeners, and an envelope without [payload] is decoded without
    one. *)
Lemma decode_accepts_nameless :
  let text := jsq "{'payload':{}}" in
  let v := JObject [(js "payload", JObject [])] in
  let w := Samples.told (js "window.events.X") text in
  JSON_parse text = Some v /\
  field (js "name") v = None /\
  dispatches (since w (resume 0 (deliver w))) = [(1, v)] /\
  JSON_parse (jsq "{'name':'X'}") = Some (JObject [(js "name", JString (js "X"))]) /\
  field (js "payload") (JObject [(js "name", JString (js "X"))]) = None.
Proof. vm_compute. repeat split. Qed.

(** C3, amended. Decoding is [JSON.parse] and nothing more. A text that
    is not JSON is rejected: the listener's promise rejects with the
    syntax error and nothing is dispatched. Any JSON text is accepted as
    it parses, with or without [name] and [payload]: the listeners
    receive the parsed value itself. *)
Theorem decode_unchecked (w : Window) (this : nat) (key text : jsstring)
    (rest : list jsstring) :
  subscriptions w = [this] -> inbox w = key :: rest -> reads w = [] ->
  startsWith key EVENT_KEY_PREFIX = true -> online w = true ->
  secrets w !! key = Some text -> text <> [] ->
  let w' := resume 0 (deliver w) in
  match JSON_parse text with
  | None =>
      dispatches (since w w') = [] /\ Unhandled SyntaxError ∈ since w w'
  | Some v =>
      dispatches (since w w') = map (fun l => (lid l, v)) (listeners w this) /\
      (forall e, Unhandled e ∉ since w w')
  end.
Proof.
  intros Hs Hi Hr Hp Ho Hv Ht w'. subst w'.
  rewrite (receive_value w this key text rest Hs Hi Hr Hp Ho Hv Ht).
  rewrite since_received. destruct (JSON_parse text) as [v|].
  - split.
    + rewrite dispatches_app, dispatches_emitter_fire. reflexivity.
    + intros e He. apply elem_of_app in He as [He|He].
      * repeat (apply elem_of_cons in He as [He|He]; [discriminate He|]).
        apply elem_of_nil in He as [].
      * apply emitter_fire_quiet in He as [[l Hl]|[l Hl]]; discriminate.
  - split; [reflexivity|]. apply elem_of_app. right. apply list_elem_of_singleton. reflexivity.
Qed.

Lemma decode_unchecked_witness :
  let w := Samples.told (js "window.events.X") (jsq "{'payload':{}}") in
  let v := JObject [(js "payload", JObject [])] in
  dispatches (since w (resume 0 (deliver w))) = map (fun l => (lid l, v)) (listeners w 0) /\
  (forall e, Unhandled e ∉ since w (resume 0 (deliver w))).
Proof.
  pose proof (decode_unchecked
                (Samples.told (js "window.events.X") (jsq "{'payload':{}}")) 0
                (js "window.events.X") (jsq "{'payload':{}}") []
                eq_refl eq_refl eq_refl eq_refl eq_refl eq_refl) as H.
  specialize (H ltac:(discriminate)). cbv zeta in H.
  replace (JSON_parse (jsq "{'payload':{}}"))
    with (Some (JObject [(js "payload", JObject [])])) in H
    by (vm_compute; reflexivity).
  exact H.
Defined.

(** C4, as stated, fails: for a value that is not JSON the window logs
    its two debug lines, as for any value, and no failure; the error
    leaves the listener as a rejected promise. *)
Lemma malformed_not_logged :
  let key := js "window.events.X" in
  let text := js "{oops" in
  let w := Samples.told key text in
  startsWith key EVENT_KEY_PREFIX = true /\
  secrets w !! key = Some text /\
  JSON_parse text = None /\
  since w (resume 0 (deliver w)) =
    [Logged Debug (js "Event emitted: window.events.X"); SecretGet key;
     Logged Debug (js "Event payload: {oops"); Unhandled SyntaxError] /\
  ~ Exists reports_failure (since w (resume 0 (deliver w))).
Proof.
  cbv zeta. repeat split; try reflexivity.
  intros H. vm_compute in H.
  repeat (apply Exists_cons in H as [H|H]; [exact H|]).
  apply Exists_nil in H. exact H.
Qed.

(** C4, amended. When the value under a prefixed key is a non-empty text
    that is not JSON, the notification ends in a rejected promise
    carrying the syntax error, after the two debug lines; no listener is
    called. The bus is as it was: an envelope fired afterwards reaches
    every listener. *)
Theorem malformed_value_rejected (w : Window) (this : nat) (key text : jsstring) :
  listening w this -> inbox w = [key] -> reads w = [] ->
  startsWith key EVENT_KEY_PREFIX = true -> online w = true ->
  secrets w !! key = Some text -> text <> [] -> JSON_parse text = None ->
  let w' := resume 0 (deliver w) in
  since w w' =
    [Logged Debug (js "Event emitted: " ++ key); SecretGet key;
     Logged Debug (js "Event payload: " ++ text); Unhandled SyntaxError] /\
  dispatches (since w w') = [] /\
  forall e w1,
    serializable (envelope e) = true -> fire e w' = (Resolved, w1) ->
    dispatches (since w' (resume 0 (deliver w1))) =
      map (fun l => (lid l, envelope e)) (listeners w this).
Proof.
  intros Hl Hi Hr Hp Ho Hv Ht Hj w'. subst w'.
  pose proof Hl as (Hinst & Hs & Hlt & _).
  rewrite (receive_value w this key text [] Hs Hi Hr Hp Ho Hv Ht), Hj.
  rewrite since_received. split; [reflexivity|]. split; [reflexivity|].
  intros e w1 Hser Hf.
  rewrite (receive_fired _ this e w1) with (4 := Hf).
  - apply fire_resolved in Hf as [_ ->].
    erewrite since_app; [|fields; rewrite <- !app_assoc; reflexivity].
    rewrite !dispatches_app, dispatches_emitter_fire. reflexivity.
  - repeat split; fields; try assumption. constructor.
  - split; reflexivity.
  - exact Hser.
Qed.

Lemma malformed_value_rejected_witness :
  let w := Samples.told (js "window.events.X") (js "{oops") in
  dispatches (since w (resume 0 (deliver w))) = [].
Proof.
  apply (malformed_value_rejected (Samples.told (js "window.events.X") (js "{oops")) 0
           (js "window.events.X") (js "{oops")); try reflexivity.
  - repeat split; [cbn; lia|constructor].
  - discriminate.
Defined.

(** *** The singleton *)

Lemma registrations_app t1 t2 :
  registrations (t1 ++ t2) = registrations t1 + registrations t2.
Proof. unfold registrations. rewrite omap_app, length_app. reflexivity. Qed.

Lemma registrations_emitter_fire ls v : registrations (emitter_fire ls v) = 0.
Proof.
  induction ls as [|l ls IH]; [reflexivity|].
  cbn [emitter_fire]. change (Invoked (lid l) v :: ?t) with ([Invoked (lid l) v] ++ t).
  rewrite !registrations_app, IH. destruct (throws l v); reflexivity.
Qed.

Lemma sound_boot store up : sound (boot store up).
Proof. repeat split. Qed.

Lemma sound_getInstance w :
  sound w ->
  sound (getInstance w).2 /\ instance (getInstance w).2 = Some (getInstance w).1.
Proof.
  unfold sound, getInstance. destruct (instance w) as [this|] eqn:Hi.
  - intros H. cbn [fst snd]. rewrite Hi. auto.
  - intros (Hs & Hr & Hn). unfold constructor, listening. fields.
    rewrite Hs, Hr, !registrations_app, Hn.
    repeat split; [rewrite length_app; cbn; lia|constructor].
Qed.

Lemma sound_frame w w' :
  instance w' = instance w -> subscriptions w' = subscriptions w ->
  length (objects w') = length (objects w) ->
  registrations (trace w') = registrations (trace w) ->
  (forall r, r ∈ reads w' -> r ∈ reads w \/ [r.1] = subscriptions w) ->
  sound w -> sound w'.
Proof.
  intros Hi Hs Hlen Hn Hr. unfold sound, listening. rewrite Hi, Hs, Hlen, Hn.
  destruct (instance w) as [this|].
  - intros ((_ & Hsub & Hlt & Hall) & H1). repeat split; try assumption.
    apply Forall_forall. intros r Hin. destruct (Hr r Hin) as [Hold|Hnew].
    + rewrite Forall_forall in Hall. apply Hall, Hold.
    + congruence.
  - intros (Hsub & Hrd & H0). repeat split; try assumption.
    destruct (reads w') as [|r rs]; [reflexivity|].
    destruct (Hr r ltac:(left)) as [Hold|Hnew].
    + rewrite Hrd in Hold. apply elem_of_nil in Hold as [].
    + congruence.
Qed.

Lemma sound_fire e w : sound w -> sound (fire e w).2.
Proof.
  unfold fire, secrets_store. destruct (ToString_object (payload e)) as [p|]; [|auto].
  fields. destruct (online w); fields; apply sound_frame; fields; try reflexivity; auto;
    rewrite !registrations_app; cbn; lia.
Qed.

Lemma sound_event this l w : sound w -> sound (event this l w).
Proof.
  unfold event. destruct (objects w !! this); [|auto].
  apply sound_frame; fields; try reflexivity; auto. apply length_insert.
Qed.

Lemma sound_deliver w : sound w -> sound (deliver w).
Proof.
  intros Hw. unfold deliver. destruct (inbox w) as [|key rest] eqn:Hi; [exact Hw|].
  assert (H0 : sound (set_inbox rest w)) by (revert Hw; apply sound_frame; auto).
  destruct (subscriptions w) as [|this [|that ss]] eqn:Hs.
  - exact H0.
  - cbn [fold_left]. revert H0. unfold onDidChange_listener.
    destruct (startsWith key EVENT_KEY_PREFIX); [|auto].
    apply sound_frame; fields; try reflexivity.
    + rewrite registrations_app. cbn. lia.
    + intros r Hr. apply elem_of_app in Hr as [Hr|Hr]; [left; exact Hr|right].
      apply list_elem_of_singleton in Hr as ->. rewrite Hs. reflexivity.
  - exfalso. unfold sound, listening in Hw.
    destruct (instance w); [destruct Hw as ((_ & Hw & _) & _)|destruct Hw as (Hw & _)];
      congruence.
Qed.

Lemma sound_resume i w : sound w -> sound (resume i w).
Proof.
  intros Hw. unfold resume. destruct (reads w !! i) as [[this key]|] eqn:Hr; [|exact Hw].
  assert (H0 : sound (set_reads (delete i (reads w)) w)).
  { revert Hw. apply sound_frame; fields; try reflexivity.
    intros r Hin. left. apply list_elem_of_delete_inv in Hin. exact Hin. }
  revert H0. generalize (set_reads (delete i (reads w)) w) as w0. intros w0.
  apply sound_frame; unfold onDidChange_resume;
    destruct (online w0); fields; try reflexivity;
    try (rewrite registrations_app; cbn; lia); auto;
    destruct (secrets w0 !! key) as [text|]; try reflexivity; auto;
    destruct (truthy (Some text)); try reflexivity; auto;
    destruct (JSON_parse text); fields; try reflexivity;
    try (rewrite registrations_app; cbn; lia); auto;
    destruct (objects w0 !! this); fields; try reflexivity; auto;
    rewrite ?registrations_app, ?registrations_emitter_fire; cbn; lia.
Qed.

Lemma sound_exec op w : sound w -> sound (exec op w).
Proof.
  intros Hw. destruct op as [|e|l| |i|k v|k|b]; cbn [exec].
  - apply sound_getInstance, Hw.
  - unfold events. destruct (getInstance w) as [this w1] eqn:E.
    apply sound_fire. pose proof (sound_getInstance w Hw) as [H _].
    rewrite E in H. exact H.
  - unfold events. destruct (getInstance w) as [this w1] eqn:E.
    apply sound_event. pose proof (sound_getInstance w Hw) as [H _].
    rewrite E in H. exact H.
  - apply sound_deliver, Hw.
  - apply sound_resume, Hw.
  - revert Hw. apply sound_frame; auto.
  - revert Hw. apply sound_frame; auto.
  - revert Hw. apply sound_frame; auto.
Qed.

Lemma instance_exec op w this : instance w = Some this -> instance (exec op w) = Some this.
Proof.
  intros Hi. destruct op as [|e|l| |i|k v|k|b]; cbn [exec]; try exact Hi.
  - unfold events, getInstance. rewrite Hi. exact Hi.
  - unfold events, getInstance. rewrite Hi. unfold fire, secrets_store.
    destruct (ToString_object (payload e)); [|exact Hi].
    fields. destruct (online w); exact Hi.
  - unfold events, getInstance. rewrite Hi. unfold event.
    destruct (objects w !! this); exact Hi.
  - unfold deliver. destruct (inbox w) as [|key rest]; [exact Hi|].
    assert (H0 : instance (set_inbox rest w) = Some this) by exact Hi.
    revert H0. generalize (set_inbox rest w) as w0.
    induction (subscriptions w) as [|s ss IH]; intros w0 H0; [exact H0|].
    cbn [fold_left]. apply IH. unfold onDidChange_listener.
    destruct (startsWith key EVENT_KEY_PREFIX); exact H0.
  - unfold resume. destruct (reads w !! i) as [[s key]|]; [|exact Hi].
    unfold onDidChange_resume. fields. destruct (online w); [|exact Hi].
    destruct (secrets w !! key) as [text|]; [|exact Hi].
    destruct (truthy (Some text)); [|exact Hi].
    destruct (JSON_parse text); [|exact Hi].
    destruct (objects w !! s); exact Hi.
Qed.

Lemma sound_run ops w : sound w -> sound (run ops w).
Proof.
  revert w. induction ops as [|op ops IH]; intros w Hw; [exact Hw|].
  apply IH, sound_exec, Hw.
Qed.

Lemma instance_run ops w this : instance w = Some this -> instance (run ops w) = Some this.
Proof.
  revert w. induction ops as [|op ops IH]; intros w Hw; [exact Hw|].
  apply IH, instance_exec, Hw.
Qed.

(** C8. Whatever a window did before and whatever it does after, once
    [getInstance] has answered, every later call answers the same object
    and leaves the window as it is; this object's listener is the only
    one ever registered on [secrets.onDidChange]. *)
Theorem getInstance_once (store : gmap jsstring jsstring) (up : bool)
    (before after : list Op) :
  let w0 := run before (boot store up) in
  let first := (getInstance w0).1 in
  let w := run after (getInstance w0).2 in
  getInstance w = (first, w) /\
  subscriptions w = [first] /\
  registrations (trace w) = 1.
Proof.
  intros w0 first w.
  assert (H0 : sound w0) by apply sound_run, sound_boot.
  destruct (sound_getInstance w0 H0) as [H1 Hi]. fold first in Hi.
  assert (Hw : sound w) by apply sound_run, H1.
  assert (Hiw : instance w = Some first) by apply instance_run, Hi.
  unfold sound in Hw. rewrite Hiw in Hw. destruct Hw as ((_ & Hs & _) & Hn).
  unfold getInstance. rewrite Hiw. auto.
Qed.

(** *** Two writes before any notification is handled *)

(** C2, as stated, fails: after two [fire] calls for the same name the
    window handles two notifications, and its listener is called twice,
    both times with the later payload. *)
Lemma coalescing_dispatches_twice :
  let w := Samples.started in
  let w' := run [Fire (Samples.X 1); Fire (Samples.X 2);
                 Deliver; Resume 0; Deliver; Resume 0] w in
  dispatches (since w w') =
    [(1, envelope (Samples.X 2)); (1, envelope (Samples.X 2))] /\
  ~ length (dispatches (since w w')) <= 1.
Proof. vm_compute. split; [reflexivity|lia]. Qed.

Lemma lookup_repeat_delete {A} (x y : A) (b i : nat) :
  repeat x b !! i = Some y ->
  y = x /\ exists b', b = S b' /\ delete i (repeat x b) = repeat x b'.
Proof.
  revert i. induction b as [|b IH]; intros i Hi; [discriminate Hi|].
  destruct i as [|i].
  - injection Hi as <-. split; [reflexivity|]. exists b. split; reflexivity.
  - destruct (IH i Hi) as (-> & b' & -> & Hdel).
    split; [reflexivity|]. exists (S b'). split; [reflexivity|].
    change (x :: delete i (repeat x (S b')) = x :: repeat x b'). rewrite Hdel. reflexivity.
Qed.

Lemma concat_repeat_S {A} (l : list A) c :
  concat (repeat l (S c)) = concat (repeat l c) ++ l.
Proof.
  induction c as [|c IH]; [cbn; rewrite app_nil_r; reflexivity|].
  change (concat (repeat l (S (S c)))) with (l ++ concat (repeat l (S c))).
  rewrite IH at 1. rewrite app_assoc. reflexivity.
Qed.

Section TwoWrites.
Variables (w0 : Window) (this : nat) (key text : jsstring) (v : json).

Hypothesis Hprefix : startsWith key EVENT_KEY_PREFIX = true.
Hypothesis Htext : text <> [].
Hypothesis Hparse : JSON_parse text = Some v.

Lemma handling_deliver a b c w :
  handling w0 this key text v a b c w ->
  exists a' b', a' + b' = a + b /\ handling w0 this key text v a' b' c (deliver w).
Proof.
  intros (Hi & Hr & Hs & Ho & Hv & Hl & t & Ht & Hd).
  destruct a as [|a].
  - exists 0, b. split; [reflexivity|]. unfold deliver. rewrite Hi. cbn [repeat].
    repeat split; try assumption. exists t. auto.
  - exists a, (S b). split; [lia|].
    rewrite (deliver_prefixed w this key (repeat key a) Hs Hi Hprefix).
    unfold handling, listeners in *. fields. rewrite Hr, <- repeat_cons.
    repeat split; try assumption.
    eexists. split; [rewrite Ht, <- app_assoc; reflexivity|].
    rewrite dispatches_app, Hd. cbn. apply app_nil_r.
Qed.

Lemma handling_resume i a b c w :
  handling w0 this key text v a b c w ->
  exists b' c', b' + c' = b + c /\ handling w0 this key text v a b' c' (resume i w).
Proof.
  intros (Hi & Hr & Hs & Ho & Hv & Hl & t & Ht & Hd).
  destruct (reads w !! i) as [r|] eqn:Hri.
  - pose proof Hri as Hri'. rewrite Hr in Hri'.
    apply lookup_repeat_delete in Hri' as (-> & b' & -> & Hdel).
    exists b', (S c). split; [lia|].
    rewrite (resume_value_at w i this key text Hri Ho Hv Htext), Hparse.
    rewrite Hr, Hdel.
    unfold handling. fields. repeat split; try assumption.
    eexists. split; [rewrite Ht, <- app_assoc; reflexivity|].
    rewrite dispatches_app. change (Logged ?l ?m :: ?x) with ([Logged l m] ++ x).
    rewrite dispatches_app, dispatches_emitter_fire, Hd, Hl. cbn [dispatches omap app].
    symmetry. apply concat_repeat_S.
  - exists b, c. split; [reflexivity|]. rewrite (resume_none w i Hri).
    repeat split; try assumption. exists t. auto.
Qed.

Lemma handling_run sched :
  Forall (fun op => scheduling op = true) sched ->
  forall a b c w, handling w0 this key text v a b c w ->
  exists a' b' c', a' + b' + c' = a + b + c /\
                   handling w0 this key text v a' b' c' (run sched w).
Proof.
  induction 1 as [|op sched Hop _ IH]; intros a b c w Hw;
    [|destruct op; try discriminate Hop].
  - exists a, b, c. auto.
  - destruct (handling_deliver a b c w Hw) as (a1 & b1 & E1 & H1).
    destruct (IH _ _ _ _ H1) as (a2 & b2 & c2 & E2 & H2).
    exists a2, b2, c2. split; [lia|exact H2].
  - destruct (handling_resume i a b c w Hw) as (b1 & c1 & E1 & H1).
    destruct (IH _ _ _ _ H1) as (a2 & b2 & c2 & E2 & H2).
    exists a2, b2, c2. split; [lia|exact H2].
Qed.
End TwoWrites.

(** C2, amended. Two envelopes of the same name are fired one after the
    other in a quiet window, and then the scheduler runs, in any order.
    Every call a listener receives carries the second envelope. Once
    nothing is pending each notification has been dispatched: every
    listener has been called twice. *)
Theorem coalescing_last_write (w : Window) (this : nat) (e1 e2 : IEventPayload)
    (w1 w2 : Window) (sched : list Op) :
  listening w this -> quiet w ->
  name e1 = name e2 ->
  serializable (envelope e2) = true ->
  fire e1 w = (Resolved, w1) -> fire e2 w1 = (Resolved, w2) ->
  Forall (fun op => scheduling op = true) sched ->
  let w' := run sched w2 in
  let calls := map (fun l => (lid l, envelope e2)) (listeners w this) in
  Forall (fun d => d.2 = envelope e2) (dispatches (since w w')) /\
  (quiet w' -> dispatches (since w w') = calls ++ calls).
Proof.
  intros (Hinst & Hs & Hlt & _) [Hin Hrd] Hname Hser Hf1 Hf2 Hsched w' calls.
  apply fire_resolved in Hf1 as [Ho Hw1]. apply fire_resolved in Hf2 as [_ Hw2].
  set (key := EVENT_KEY_PREFIX ++ name e2) in *.
  set (text := JSON_stringify (envelope e2)) in *.
  assert (H2 : handling w this key text (envelope e2) 2 0 0 w2).
  { rewrite Hw2, Hw1. unfold handling, listeners. fields. rewrite Hin, Hname. fold key.
    repeat split; try assumption.
    - apply lookup_insert_eq.
    - eexists. split; [rewrite <- app_assoc; reflexivity|reflexivity]. }
  destruct (handling_run w this key text (envelope e2)
              (startsWith_app _ _) ltac:(discriminate)
              (JSON_parse_stringify _ Hser) sched Hsched _ _ _ _ H2)
    as (a & b & c & Habc & Hi & Hr & _ & _ & _ & _ & t & Ht & Hd).
  fold w' in Hi, Hr, Ht. rewrite (since_app w w' t Ht), Hd. split.
  - apply Forall_concat, Forall_forall. intros l Hl.
    apply list_elem_of_In, repeat_spec in Hl. subst l.
    apply Forall_forall. intros d Hdin. apply list_elem_of_fmap in Hdin as (l & -> & _).
    reflexivity.
  - intros [Hqi Hqr]. rewrite Hqi in Hi. rewrite Hqr in Hr.
    destruct a; [|discriminate]. destruct b; [|discriminate].
    assert (c = 2) by lia. subst c. cbn. rewrite app_nil_r. reflexivity.
Qed.

Lemma coalescing_last_write_witness :
  let w := Samples.started in
  let w2 := (fire (Samples.X 2) (fire (Samples.X 1) w).2).2 in
  let w' := run [Deliver; Deliver; Resume 0; Resume 0] w2 in
  let calls := map (fun l => (lid l, envelope (Samples.X 2))) (listeners w 0) in
  Forall (fun d => d.2 = envelope (Samples.X 2)) (dispatches (since w w')) /\
  (quiet w' -> dispatches (since w w') = calls ++ calls).
Proof.
  apply (coalescing_last_write Samples.started 0 (Samples.X 1) (Samples.X 2)
           (fire (Samples.X 1) Samples.started).2
           (fire (Samples.X 2) (fire (Samples.X 1) Samples.started).2).2
           [Deliver; Deliver; Resume 0; Resume 0]).
  - repeat split; [cbn; lia|constructor].
  - split; reflexivity.
  - reflexivity.
  - reflexivity.
  - vm_compute. reflexivity.
  - vm_compute. reflexivity.
  - repeat constructor.
Defined.

End EventsFacts.

(** ** More on the bus *)

Module OrderFacts.
Import Js Host Events Order JsFacts EventsFacts.

Lemma startsWith_spec s p : startsWith s p = true <-> exists t, s = p ++ t.
Proof.
  revert s. induction p as [|a p IH]; intros s.
  - split; [intros _; exists s; reflexivity|reflexivity].
  - destruct s as [|b s]; cbn [startsWith].
    + split; [discriminate|]. intros [t Ht]. discriminate Ht.
    + rewrite andb_true_iff, N.eqb_eq, IH. split.
      * intros [-> [t ->]]. exists t. reflexivity.
      * intros [t Ht]. injection Ht as -> ->. split; [reflexivity|exists t; reflexivity].
Qed.

(** *** The bus keeps to its namespace *)

Lemma continues_refl w w' : trace w' = trace w -> continues w w'.
Proof. intros H. exists []. rewrite app_nil_r. split; [exact H|constructor]. Qed.

Lemma continues_trans w1 w2 w3 : continues w1 w2 -> continues w2 w3 -> continues w1 w3.
Proof.
  intros (t1 & H1 & F1) (t2 & H2 & F2). exists (t1 ++ t2). split.
  - rewrite H2, H1, app_assoc. reflexivity.
  - apply Forall_app. split; assumption.
Qed.

Lemma continues_observe t w : Forall confined t -> continues w (observe t w).
Proof. intros H. exists t. split; [reflexivity|exact H]. Qed.

Lemma confined_emitter_fire ls v : Forall confined (emitter_fire ls v).
Proof.
  induction ls as [|l ls IH]; [constructor|].
  cbn [emitter_fire]. constructor; [exact I|].
  apply Forall_app. split; [|exact IH].
  destruct (throws l v); repeat constructor.
Qed.

Lemma continues_getInstance w : continues w (getInstance w).2.
Proof.
  unfold getInstance. destruct (instance w); [apply continues_refl; reflexivity|].
  unfold constructor. fields. exists [OnDidChange (length (objects w));
                                       Logged Info (js "EventsSingleton instance created")].
  split; [fields; rewrite <- app_assoc; reflexivity|repeat constructor].
Qed.

Lemma continues_fire e w : continues w (fire e w).2.
Proof.
  unfold fire. destruct (ToString_object (payload e)) as [p|];
    [|apply continues_refl; reflexivity].
  unfold secrets_store. fields.
  exists [Logged Debug (js "Firing event: " ++ name e ++ js " with payload: " ++ p);
          SecretStore (EVENT_KEY_PREFIX ++ name e) (JSON_stringify (envelope e))].
  split.
  - destruct (online w); fields; rewrite <- app_assoc; reflexivity.
  - repeat constructor. exists (name e). reflexivity.
Qed.

Lemma continues_listener this key w : continues w (onDidChange_listener this key w).
Proof.
  unfold onDidChange_listener.
  destruct (startsWith key EVENT_KEY_PREFIX) eqn:Hp; [|apply continues_refl; reflexivity].
  eexists. split; [reflexivity|]. repeat constructor.
  apply startsWith_spec, Hp.
Qed.

Lemma continues_deliver w : continues w (deliver w).
Proof.
  unfold deliver. destruct (inbox w) as [|key rest]; [apply continues_refl; reflexivity|].
  apply continues_trans with (set_inbox rest w); [apply continues_refl; reflexivity|].
  generalize (set_inbox rest w) as w0.
  induction (subscriptions w) as [|this ss IH]; intros w0;
    [apply continues_refl; reflexivity|].
  cbn [fold_left]. eapply continues_trans; [apply continues_listener|apply IH].
Qed.

Lemma continues_resume i w : continues w (resume i w).
Proof.
  unfold resume. destruct (reads w !! i) as [[this key]|];
    [|apply continues_refl; reflexivity].
  apply continues_trans with (set_reads (delete i (reads w)) w);
    [apply continues_refl; reflexivity|].
  generalize (set_reads (delete i (reads w)) w) as w0. intros w0. unfold onDidChange_resume.
  destruct (online w0); [|apply continues_observe; repeat constructor].
  destruct (secrets w0 !! key) as [text|]; [|apply continues_refl; reflexivity].
  destruct (truthy (Some text)); [|apply continues_refl; reflexivity].
  destruct (JSON_parse text) as [v|].
  - destruct (objects w0 !! this) as [o|].
    + apply continues_trans
        with (observe [Logged Debug (js "Event payload: " ++ text)] w0);
        [apply continues_observe; repeat constructor|].
      apply continues_observe, confined_emitter_fire.
    + apply continues_observe. repeat constructor.
  - apply continues_trans
      with (observe [Logged Debug (js "Event payload: " ++ text)] w0);
      apply continues_observe; repeat constructor.
Qed.

Lemma continues_exec op w : continues w (exec op w).
Proof.
  destruct op as [|e|l| |i|k v|k|b]; cbn [exec]; try (apply continues_refl; reflexivity).
  - apply continues_getInstance.
  - pose proof (continues_getInstance w) as H. unfold events.
    destruct (getInstance w) as [this w1]. eapply continues_trans; [exact H|].
    apply continues_fire.
  - pose proof (continues_getInstance w) as H. unfold events.
    destruct (getInstance w) as [this w1]. eapply continues_trans; [exact H|].
    apply continues_refl. unfold event. destruct (objects w1 !! this); reflexivity.
  - apply continues_deliver.
  - apply continues_resume.
Qed.

Lemma continues_run ops w : continues w (run ops w).
Proof.
  revert w. induction ops as [|op ops IH]; intros w; [apply continues_refl; reflexivity|].
  eapply continues_trans; [apply continues_exec|apply IH].
Qed.

(** X1. Whatever happens in a window, from activation on, every secret
    the bus reads and every secret it stores has a key made of the prefix
    followed by a name: the bus never touches another secret. *)
Theorem namespace_confinement (store : gmap jsstring jsstring) (up : bool)
    (ops : list Op) (key : jsstring) :
  let w := run ops (boot store up) in
  (SecretGet key ∈ trace w -> in_namespace key) /\
  (forall value, SecretStore key value ∈ trace w -> in_namespace key).
Proof.
  intros w. destruct (continues_run ops (boot store up)) as (t & Ht & Hall).
  fold w in Ht. cbn [trace boot app] in Ht. rewrite Ht.
  rewrite Forall_forall in Hall. split.
  - intros Hin. apply (Hall _ Hin).
  - intros value Hin. apply (Hall _ Hin).
Qed.

(** *** Publishing, further *)

(** X2. With the storage in reach, [fire] resolves exactly when the
    payload has no own property named [toString]. When it has one, the
    debug line throws before anything else happens: the promise rejects
    with a [TypeError] and the window is as before, nothing logged,
    nothing stored, nobody notified. *)
Theorem fire_resolves_iff (e : IEventPayload) (w : Window) :
  online w = true ->
  ((fire e w).1 = Resolved <-> obj_get (js "toString") (payload e) = None) /\
  (obj_get (js "toString") (payload e) <> None -> fire e w = (Rejected TypeError, w)).
Proof.
  intros Ho. unfold fire, ToString_object, secrets_store. fields. rewrite Ho.
  destruct (obj_get (js "toString") (payload e)); cbn [fst]; split.
  - split; discriminate.
  - intros _. reflexivity.
  - split; reflexivity.
  - intros H. contradiction.
Qed.

Lemma fire_resolves_iff_witness :
  serializable (envelope shadowing) = true /\
  fire shadowing (boot ∅ true) = (Rejected TypeError, boot ∅ true).
Proof.
  split; [reflexivity|].
  apply (fire_resolves_iff shadowing (boot ∅ true)); [reflexivity|discriminate].
Defined.

Lemma fire_other_secrets e w w' k :
  fire e w = (Resolved, w') -> k <> EVENT_KEY_PREFIX ++ name e ->
  secrets w' !! k = secrets w !! k.
Proof.
  intros Hf Hk. apply fire_resolved in Hf as [_ ->]. fields.
  apply lookup_insert_ne. congruence.
Qed.

(** X3. Events of different names do not disturb each other in the
    storage: after two [fire] calls for two names, each key still decodes
    to its own envelope. *)
Theorem fire_two_names (e1 e2 : IEventPayload) (w w1 w2 : Window) :
  name e1 <> name e2 ->
  serializable (envelope e1) = true -> serializable (envelope e2) = true ->
  fire e1 w = (Resolved, w1) -> fire e2 w1 = (Resolved, w2) ->
  (exists t1, secrets w2 !! (EVENT_KEY_PREFIX ++ name e1) = Some t1 /\
              JSON_parse t1 = Some (envelope e1)) /\
  (exists t2, secrets w2 !! (EVENT_KEY_PREFIX ++ name e2) = Some t2 /\
              JSON_parse t2 = Some (envelope e2)).
Proof.
  intros Hne Hs1 Hs2 Hf1 Hf2. split.
  - destruct (fire_round_trip e1 w w1 Hs1 Hf1) as (t1 & Ht1 & Hp1).
    exists t1. split; [|exact Hp1].
    rewrite (fire_other_secrets e2 w1 w2 _ Hf2); [exact Ht1|].
    intros Heq. apply app_inv_head in Heq. contradiction.
  - apply (fire_round_trip e2 w1 w2 Hs2 Hf2).
Qed.

Lemma fire_two_names_witness :
  let w2 := (fire Samples.providers (fire (Samples.X 1) (boot ∅ true)).2).2 in
  (exists t1, secrets w2 !! (EVENT_KEY_PREFIX ++ name (Samples.X 1)) = Some t1 /\
              JSON_parse t1 = Some (envelope (Samples.X 1))) /\
  (exists t2, secrets w2 !! (EVENT_KEY_PREFIX ++ name Samples.providers) = Some t2 /\
              JSON_parse t2 = Some (envelope Samples.providers)).
Proof.
  apply (fire_two_names (Samples.X 1) Samples.providers (boot ∅ true)
           (fire (Samples.X 1) (boot ∅ true)).2
           (fire Samples.providers (fire (Samples.X 1) (boot ∅ true)).2).2).
  - discriminate.
  - reflexivity.
  - reflexivity.
  - vm_compute. reflexivity.
  - vm_compute. reflexivity.
Defined.

(** *** Receiving, further *)

Lemma quiet_run sched w :
  quiet w -> Forall (fun op => scheduling op = true) sched -> run sched w = w.
Proof.
  intros [Hi Hr]. induction 1 as [|op sched Hop _ IH]; [reflexivity|].
  cbn [run fold_left]. destruct op; try discriminate Hop; cbn [exec].
  - unfold deliver. rewrite Hi. exact IH.
  - unfold resume. rewrite Hr. exact IH.
Qed.

(** X4. When the storage cannot be reached at the time a listener reads
    its key, the listener ends in a rejected promise and calls nobody.
    The notification is gone: when the storage is back, no step of the
    scheduler reads the key again. *)
Theorem read_failure_loses_event (w : Window) (this : nat) (key : jsstring) :
  subscriptions w = [this] -> inbox w = [key] -> reads w = [] ->
  startsWith key EVENT_KEY_PREFIX = true -> online w = false ->
  let w1 := resume 0 (deliver w) in
  since w w1 =
    [Logged Debug (js "Event emitted: " ++ key); SecretGet key;
     Unhandled StoreUnavailable] /\
  dispatches (since w w1) = [] /\
  forall sched, Forall (fun op => scheduling op = true) sched ->
                run sched (set_online true w1) = set_online true w1.
Proof.
  intros Hs Hi Hr Hp Ho w1. subst w1.
  rewrite (deliver_prefixed w this key [] Hs Hi Hp), Hr.
  rewrite (resume_head _ this key []) by reflexivity.
  unfold onDidChange_resume. cbn [app]. fields. rewrite Ho.
  erewrite since_app by (fields; rewrite <- app_assoc; reflexivity).
  split; [reflexivity|]. split; [reflexivity|].
  intros sched Hsched. apply quiet_run; [split; reflexivity|exact Hsched].
Qed.

Lemma read_failure_loses_event_witness :
  let w := set_online false
             (Samples.told (js "window.events.X") (jsq "{'name':'X','payload':{}}")) in
  dispatches (since w (resume 0 (deliver w))) = [].
Proof.
  apply (read_failure_loses_event
           (set_online false
              (Samples.told (js "window.events.X") (jsq "{'name':'X','payload':{}}")))
           0 (js "window.events.X")); reflexivity.
Defined.

(** X5. A handler that subscribes after [fire] has resolved, but before
    the notification is handled, receives the event like the handlers
    that were there before, after them. *)
Theorem late_subscriber (w : Window) (this : nat) (h : Listener)
    (e : IEventPayload) (w1 : Window) :
  listening w this -> quiet w ->
  serializable (envelope e) = true ->
  fire e w = (Resolved, w1) ->
  dispatches (since w (resume 0 (deliver (event this h w1)))) =
    map (fun l => (lid l, envelope e)) (listeners w this ++ [h]).
Proof.
  intros (Hinst & Hs & Hlt & _) [Hin Hrd] Hser Hf.
  apply fire_resolved in Hf as [Ho ->].
  set (w1 := set_inbox _ _).
  assert (Hlt1 : this < length (objects w1)) by exact Hlt.
  destruct (lookup_lt_is_Some_2 _ _ Hlt1) as [o Hobj].
  assert (Hev : event this h w1 =
                set_objects (<[this := {| eventEmitter := eventEmitter o ++ [h] |}]>
                               (objects w1)) w1).
  { unfold event. rewrite Hobj. reflexivity. }
  rewrite (receive_value (event this h w1) this (EVENT_KEY_PREFIX ++ name e)
             (JSON_stringify (envelope e)) []).
  - rewrite JSON_parse_stringify by exact Hser.
    rewrite (listeners_event w1 this h Hlt1).
    erewrite since_app;
      [|rewrite Hev; subst w1; fields; rewrite <- !app_assoc; reflexivity].
    rewrite !dispatches_app, dispatches_emitter_fire. reflexivity.
  - rewrite Hev. exact Hs.
  - rewrite Hev. subst w1. fields. rewrite Hin. reflexivity.
  - rewrite Hev. exact Hrd.
  - apply startsWith_app.
  - rewrite Hev. exact Ho.
  - rewrite Hev. subst w1. fields. apply lookup_insert_eq.
  - discriminate.
Qed.

Lemma late_subscriber_witness :
  let w := run [Access] (boot ∅ true) in
  let w1 := (fire Samples.providers w).2 in
  dispatches (since w (resume 0 (deliver (event 0 (Samples.calm 3) w1)))) =
    map (fun l => (lid l, envelope Samples.providers)) (listeners w 0 ++ [Samples.calm 3]).
Proof.
  apply (late_subscriber (run [Access] (boot ∅ true)) 0 (Samples.calm 3) Samples.providers
           (fire Samples.providers (run [Access] (boot ∅ true))).2).
  - repeat split; [cbn; lia|constructor].
  - split; reflexivity.
  - reflexivity.
  - vm_compute. reflexivity.
Defined.

(** *** Order of handling *)

Lemma calls_stable w0 w this key :
  secrets w = secrets w0 -> online w = online w0 -> objects w = objects w0 ->
  calls w this key = calls w0 this key.
Proof. intros Hs Ho Hob. unfold calls, listeners. rewrite Hs, Ho, Hob. reflexivity. Qed.

Lemma resume_calls w i this key :
  reads w !! i = Some (this, key) ->
  exists t, resume i w = observe t (set_reads (delete i (reads w)) w) /\
            dispatches t = calls w this key.
Proof.
  intros Hr. rewrite (resume_at w i this key Hr).
  generalize (delete i (reads w)) as rest. intros rest.
  unfold onDidChange_resume, calls, listeners. fields.
  destruct (online w); [|eexists; split; reflexivity].
  destruct (secrets w !! key) as [text|];
    [|exists []; split; [destruct w; unfold observe, set_reads; cbn;
                         rewrite app_nil_r; reflexivity|reflexivity]].
  destruct (truthy (Some text));
    [|exists []; split; [destruct w; unfold observe, set_reads; cbn;
                         rewrite app_nil_r; reflexivity|reflexivity]].
  destruct (JSON_parse text) as [v|].
  - destruct (objects w !! this) as [o|].
    + eexists. split; [apply observe_observe|].
      rewrite dispatches_app, dispatches_emitter_fire. reflexivity.
    + eexists. split; reflexivity.
  - eexists. split; [apply observe_observe|reflexivity].
Qed.

Lemma deliver_queues w this key rest :
  subscriptions w = [this] -> inbox w = key :: rest ->
  inbox (deliver w) = rest /\
  reads (deliver w) =
    reads w ++ (if startsWith key EVENT_KEY_PREFIX then [(this, key)] else []).
Proof.
  intros Hs Hi. destruct (startsWith key EVENT_KEY_PREFIX) eqn:Hp.
  - rewrite (deliver_prefixed w this key rest Hs Hi Hp). split; reflexivity.
  - rewrite (deliver_foreign w key rest Hi Hp). split; [reflexivity|].
    cbn [reads set_inbox]. rewrite app_nil_r. reflexivity.
Qed.

Lemma handled_deliver w0 this done w :
  handled w0 this done w -> handled w0 this done (deliver w).
Proof.
  intros (Hs & Ho & Hob & Hsub & Hall & Hp & t & Ht & Hd).
  destruct (inbox w) as [|key rest] eqn:Hi.
  { unfold deliver. rewrite Hi. repeat split; try assumption. exists t. auto. }
  unfold pending in Hp. rewrite Hi in Hp. cbn [List.filter] in Hp.
  destruct (startsWith key EVENT_KEY_PREFIX) eqn:Hpre.
  - rewrite (deliver_prefixed w this key rest Hsub Hi Hpre).
    unfold handled, pending. fields. repeat split; try assumption.
    + apply Forall_app. split; [exact Hall|]. repeat constructor.
    + rewrite map_app, <- (app_assoc (map snd (reads w))). exact Hp.
    + eexists. split; [rewrite Ht, <- app_assoc; reflexivity|].
      rewrite dispatches_app, Hd. cbn. apply app_nil_r.
  - rewrite (deliver_foreign w key rest Hi Hpre).
    unfold handled, pending. fields. repeat split; try assumption. exists t. auto.
Qed.

Lemma handled_resume i w0 this done w that key :
  handled w0 this done w -> reads w !! i = Some (that, key) ->
  handled w0 this (done ++ [key]) (resume i w) /\
  reads (resume i w) = delete i (reads w) /\ inbox (resume i w) = inbox w.
Proof.
  intros (Hs & Ho & Hob & Hsub & Hall & Hp & t & Ht & Hd) Hr.
  assert (Hthat : that = this).
  { rewrite Forall_forall in Hall. apply (Hall (that, key)).
    apply list_elem_of_lookup_2 with i. exact Hr. }
  subst that.
  destruct (resume_calls w i this key Hr) as (t' & -> & Hd').
  split; [|split; reflexivity].
  unfold handled, pending. fields. repeat split; try assumption.
  - apply Forall_delete, Hall.
  - rewrite <- Hp. unfold pending.
    pose proof (Permutation_map snd (delete_Permutation (reads w) i _ Hr)) as Hm.
    cbn [map snd] in Hm. rewrite Hm, <- (app_assoc done). reflexivity.
  - eexists. split; [rewrite Ht, <- app_assoc; reflexivity|].
    rewrite dispatches_app, Hd, Hd', map_app, concat_app.
    rewrite (calls_stable w0 w this key Hs Ho Hob). cbn. rewrite app_nil_r. reflexivity.
Qed.

Lemma handled_run w0 this sched :
  Forall (fun op => scheduling op = true) sched ->
  forall done w, handled w0 this done w ->
  exists done', handled w0 this done' (run sched w).
Proof.
  induction 1 as [|op sched Hop _ IH]; intros done w Hw; [exists done; exact Hw|].
  cbn [run fold_left]. destruct op as [|e|l| |i|k v|k|b]; try discriminate Hop; cbn [exec].
  - apply (IH done), handled_deliver, Hw.
  - destruct (reads w !! i) as [[that key]|] eqn:Hr.
    + apply (IH (done ++ [key])). apply (handled_resume i w0 this done w that key Hw Hr).
    + rewrite (resume_none w i Hr). apply (IH done), Hw.
Qed.

Lemma handled_start w this : listening w this -> handled w this [] w.
Proof.
  intros (_ & Hs & _ & Hall). repeat split; try assumption; [reflexivity|].
  exists []. rewrite app_nil_r. split; reflexivity.
Qed.

Lemma pending_quiet w : quiet w -> pending w = [].
Proof. intros [Hi Hr]. unfold pending. rewrite Hi, Hr. reflexivity. Qed.

(** X6. Each notification is handled once, whatever the order in which
    the awaited reads settle. While the storage and the listeners stay
    the same, after any interleaving of deliveries and settled reads the
    listener calls made are those of the keys handled so far, each with
    the value its key holds; these keys and the keys still pending are,
    in some order, the keys that were pending at first, and when nothing
    is pending any more every one of them has been handled. *)
Theorem each_handled_once (w : Window) (this : nat) (sched : list Op) :
  listening w this ->
  Forall (fun op => scheduling op = true) sched ->
  let w' := run sched w in
  exists done,
    done ++ pending w' ≡ₚ pending w /\
    dispatches (since w w') = concat (map (calls w this) done) /\
    (quiet w' -> done ≡ₚ pending w).
Proof.
  intros Hl Hsched w'.
  destruct (handled_run w this sched Hsched [] w (handled_start w this Hl)) as [done Hn].
  fold w' in Hn. exists done.
  destruct Hn as (_ & _ & _ & _ & _ & Hp & t & Ht & Hd).
  split; [exact Hp|]. rewrite (since_app w w' t Ht). split; [exact Hd|].
  intros Hq. rewrite (pending_quiet w' Hq), app_nil_r in Hp. exact Hp.
Qed.

Lemma each_handled_once_witness :
  let w := run [Fire (Samples.X 1); Fire Samples.providers] Samples.started in
  let w' := run [Deliver; Deliver; Resume 1; Resume 0] w in
  exists done,
    done ++ pending w' ≡ₚ pending w /\
    dispatches (since w w') = concat (map (calls w 0) done) /\
    (quiet w' -> done ≡ₚ pending w).
Proof.
  apply (each_handled_once
           (run [Fire (Samples.X 1); Fire Samples.providers] Samples.started) 0
           [Deliver; Deliver; Resume 1; Resume 0]).
  - repeat split; [vm_compute; lia|constructor].
  - repeat constructor.
Defined.

Lemma truthy_envelope e : truthy (Some (JSON_stringify (envelope e))) = true.
Proof. reflexivity. Qed.

Lemma calls_fired w this key e :
  online w = true -> secrets w !! key = Some (JSON_stringify (envelope e)) ->
  serializable (envelope e) = true ->
  calls w this key = map (fun l => (lid l, envelope e)) (listeners w this).
Proof.
  intros Ho Hs Hser. unfold calls. rewrite Ho, Hs, truthy_envelope.
  rewrite JSON_parse_stringify by exact Hser. reflexivity.
Qed.

(** Two notifications are delivered, then their reads settle: the one at
    position [i] of the two, then the one at position [j] of what is
    left. *)
Lemma settle_both w0 this k1 k2 i j ka kb :
  handled w0 this [] w0 -> inbox w0 = [k1; k2] -> reads w0 = [] ->
  startsWith k1 EVENT_KEY_PREFIX = true -> startsWith k2 EVENT_KEY_PREFIX = true ->
  [(this, k1); (this, k2)] !! i = Some (this, ka) ->
  delete i [(this, k1); (this, k2)] !! j = Some (this, kb) ->
  handled w0 this [ka; kb] (run [Deliver; Deliver; Resume i; Resume j] w0).
Proof.
  intros H0 Hi Hr Hp1 Hp2 Hka Hkb.
  change (run [Deliver; Deliver; Resume i; Resume j] w0)
    with (resume j (resume i (deliver (deliver w0)))).
  pose proof (handled_deliver _ _ _ _ H0) as H1.
  destruct (deliver_queues w0 this k1 [k2] ltac:(apply H0) Hi) as [Hi1 Hr1].
  rewrite Hp1, Hr in Hr1. cbn [app] in Hr1.
  pose proof (handled_deliver _ _ _ _ H1) as H2.
  destruct (deliver_queues (deliver w0) this k2 [] ltac:(apply H1) Hi1) as [Hi2 Hr2].
  rewrite Hp2, Hr1 in Hr2. cbn [app] in Hr2.
  rewrite <- Hr2 in Hka.
  destruct (handled_resume i _ _ _ _ _ _ H2 Hka) as (H3 & Hr3 & _).
  rewrite Hr2 in Hr3. rewrite <- Hr3 in Hkb.
  destruct (handled_resume j _ _ _ _ _ _ H3 Hkb) as (H4 & _ & _).
  exact H4.
Qed.

Section TwoNames.
Variables (w : Window) (this : nat) (e1 e2 : IEventPayload) (w1 w2 : Window).

Hypothesis Hl : listening w this.
Hypothesis Hq : quiet w.
Hypothesis Hne : name e1 <> name e2.
Hypothesis Hs1 : serializable (envelope e1) = true.
Hypothesis Hs2 : serializable (envelope e2) = true.
Hypothesis Hf1 : fire e1 w = (Resolved, w1).
Hypothesis Hf2 : fire e2 w1 = (Resolved, w2).

Lemma fired_two :
  handled w2 this [] w2 /\
  inbox w2 = [EVENT_KEY_PREFIX ++ name e1; EVENT_KEY_PREFIX ++ name e2] /\
  reads w2 = [] /\
  calls w2 this (EVENT_KEY_PREFIX ++ name e1) =
    map (fun l => (lid l, envelope e1)) (listeners w this) /\
  calls w2 this (EVENT_KEY_PREFIX ++ name e2) =
    map (fun l => (lid l, envelope e2)) (listeners w this) /\
  forall done w',
    handled w2 this done w' ->
    dispatches (since w w') = concat (map (calls w2 this) done).
Proof.
  destruct Hl as (Hinst & Hs & Hlt & Hall). destruct Hq as [Hin Hrd].
  apply fire_resolved in Hf1 as [Ho Hw1]. apply fire_resolved in Hf2 as [_ Hw2].
  set (k1 := EVENT_KEY_PREFIX ++ name e1) in *.
  set (k2 := EVENT_KEY_PREFIX ++ name e2) in *.
  assert (Hk : k2 <> k1).
  { unfold k1, k2. intros Heq. apply app_inv_head in Heq. congruence. }
  assert (Hl2 : listening w2 this).
  { rewrite Hw2, Hw1. repeat split; fields; assumption. }
  assert (Ho2 : online w2 = true) by (rewrite Hw2, Hw1; exact Ho).
  assert (Hlis : listeners w2 this = listeners w this) by (rewrite Hw2, Hw1; reflexivity).
  split; [apply handled_start, Hl2|].
  split; [rewrite Hw2, Hw1; fields; rewrite Hin; reflexivity|].
  split; [rewrite Hw2, Hw1; exact Hrd|].
  split; [|split].
  - rewrite <- Hlis. apply calls_fired; [exact Ho2| |exact Hs1].
    rewrite Hw2, Hw1. fields. rewrite lookup_insert_ne by exact Hk.
    apply lookup_insert_eq.
  - rewrite <- Hlis. apply calls_fired; [exact Ho2| |exact Hs2].
    rewrite Hw2. fields. apply lookup_insert_eq.
  - intros done w' (_ & _ & _ & _ & _ & _ & t & Ht & Hd).
    erewrite since_app; [|rewrite Ht, Hw2, Hw1; fields; rewrite <- !app_assoc; reflexivity].
    rewrite !dispatches_app, Hd. reflexivity.
Qed.
End TwoNames.

(** X7. Two events of different names, fired one after the other in a
    quiet window, both reach every listener, once each: there is no
    coalescing across names. Which of the two is dispatched first is the
    order in which the two reads settle. When the reads settle as they
    were started it is the first fired; when the second read settles
    first, the second fired is dispatched before the first. *)
Theorem two_names_either_order (w : Window) (this : nat) (e1 e2 : IEventPayload)
    (w1 w2 : Window) :
  listening w this -> quiet w ->
  name e1 <> name e2 ->
  serializable (envelope e1) = true -> serializable (envelope e2) = true ->
  fire e1 w = (Resolved, w1) -> fire e2 w1 = (Resolved, w2) ->
  let first := map (fun l => (lid l, envelope e1)) (listeners w this) in
  let second := map (fun l => (lid l, envelope e2)) (listeners w this) in
  (forall sched,
     Forall (fun op => scheduling op = true) sched -> quiet (run sched w2) ->
     dispatches (since w (run sched w2)) = first ++ second \/
     dispatches (since w (run sched w2)) = second ++ first) /\
  dispatches (since w (run [Deliver; Deliver; Resume 0; Resume 0] w2)) = first ++ second /\
  dispatches (since w (run [Deliver; Deliver; Resume 1; Resume 0] w2)) = second ++ first.
Proof.
  intros Hl Hq Hne Hs1 Hs2 Hf1 Hf2 first second.
  destruct (fired_two w this e1 e2 w1 w2 Hl Hq Hne Hs1 Hs2 Hf1 Hf2)
    as (H0 & Hi & Hr & Hc1 & Hc2 & Hsince).
  fold first in Hc1. fold second in Hc2.
  assert (Hp : pending w2 = [EVENT_KEY_PREFIX ++ name e1; EVENT_KEY_PREFIX ++ name e2]).
  { unfold pending. rewrite Hi, Hr. cbn [map app List.filter].
    rewrite !startsWith_app. reflexivity. }
  split; [|split].
  - intros sched Hsched Hquiet.
    destruct (handled_run w2 this sched Hsched [] w2 H0) as [done Hn].
    rewrite (Hsince done _ Hn).
    destruct Hn as (_ & _ & _ & _ & _ & Hperm & _).
    rewrite (pending_quiet _ Hquiet), app_nil_r, Hp in Hperm.
    symmetry in Hperm. apply Permutation_length_2_inv in Hperm as [-> | ->];
      cbn [map concat]; rewrite Hc1, Hc2, app_nil_r; auto.
  - rewrite (Hsince [EVENT_KEY_PREFIX ++ name e1; EVENT_KEY_PREFIX ++ name e2]).
    + cbn [map concat]. rewrite Hc1, Hc2, app_nil_r. reflexivity.
    + apply (settle_both w2 this _ _ 0 0 _ _ H0 Hi Hr);
        try apply startsWith_app; reflexivity.
  - rewrite (Hsince [EVENT_KEY_PREFIX ++ name e2; EVENT_KEY_PREFIX ++ name e1]).
    + cbn [map concat]. rewrite Hc1, Hc2, app_nil_r. reflexivity.
    + apply (settle_both w2 this _ _ 1 0 _ _ H0 Hi Hr);
        try apply startsWith_app; reflexivity.
Qed.

Lemma two_names_either_order_witness :
  let w := Samples.started in
  let w2 := (fire Samples.providers (fire (Samples.X 1) w).2).2 in
  let first := map (fun l => (lid l, envelope (Samples.X 1))) (listeners w 0) in
  let second := map (fun l => (lid l, envelope Samples.providers)) (listeners w 0) in
  (forall sched,
     Forall (fun op => scheduling op = true) sched -> quiet (run sched w2) ->
     dispatches (since w (run sched w2)) = first ++ second \/
     dispatches (since w (run sched w2)) = second ++ first) /\
  dispatches (since w (run [Deliver; Deliver; Resume 0; Resume 0] w2)) = first ++ second /\
  dispatches (since w (run [Deliver; Deliver; Resume 1; Resume 0] w2)) = second ++ first.
Proof.
  apply (two_names_either_order Samples.started 0 (Samples.X 1) Samples.providers
           (fire (Samples.X 1) Samples.started).2
           (fire Samples.providers (fire (Samples.X 1) Samples.started).2).2).
  - repeat split; [vm_compute; lia|constructor].
  - split; reflexivity.
  - discriminate.
  - reflexivity.
  - reflexivity.
  - vm_compute. reflexivity.
  - vm_compute. reflexivity.
Defined.

End OrderFacts.

(** ** The runtime arguments *)

Module StartupFacts.
Import Js Host Startup.

Lemma obj_get_set_eq k v m : obj_get k (obj_set k v m) = Some v.
Proof.
  induction m as [|[k' v'] m IH]; cbn [obj_set obj_get].
  - rewrite bool_decide_eq_true_2 by reflexivity. reflexivity.
  - destruct (bool_decide_reflect (k = k')) as [<-|Hne]; cbn [obj_get].
    + rewrite bool_decide_eq_true_2 by reflexivity. reflexivity.
    + rewrite bool_decide_eq_false_2 by exact Hne. exact IH.
Qed.

Lemma obj_get_set_ne k k' v m : k <> k' -> obj_get k' (obj_set k v m) = obj_get k' m.
Proof.
  intros Hne. induction m as [|[k0 v0] m IH]; cbn [obj_set obj_get].
  - rewrite bool_decide_eq_false_2 by congruence. reflexivity.
  - destruct (bool_decide_reflect (k = k0)) as [<-|Hne0]; cbn [obj_get].
    + rewrite !bool_decide_eq_false_2 by congruence. reflexivity.
    + rewrite IH. reflexivity.
Qed.

Lemma obj_set_keys k v m :
  exists new, map fst (obj_set k v m) = map fst m ++ new.
Proof.
  induction m as [|[k0 v0] m [new IH]]; cbn [obj_set].
  - exists [k]. reflexivity.
  - destruct (bool_decide (k = k0)) eqn:E.
    + apply bool_decide_eq_true_1 in E. subst k0. exists []. cbn. rewrite app_nil_r.
      reflexivity.
    + exists new. cbn [map fst]. rewrite IH. reflexivity.
Qed.

Lemma includes_snoc l s : includes (l ++ [JString s]) s = true.
Proof.
  unfold includes. rewrite existsb_app. cbn.
  rewrite bool_decide_eq_true_2 by reflexivity. apply orb_true_iff. right. reflexivity.
Qed.

(** The block: what it establishes, what it keeps, when it changes. *)
Lemma add_entry_spec key entry o a t :
  let '(o', a', t') := add_entry key entry (o, a, t) in
  listed key entry a' /\
  (forall k, key <> k -> obj_get k a' = obj_get k a) /\
  (forall l, obj_get key a = Some (JArray l) ->
             exists l2, obj_get key a' = Some (JArray (l ++ l2))) /\
  (exists new, map fst a' = map fst a ++ new) /\
  (listed key entry a -> o' = o /\ a' = a) /\
  (~ listed key entry a -> o' = true /\ obj_get key a' <> obj_get key a).
Proof.
  assert (Hreplace : forall old v,
    obj_get key a = old ->
    (forall l, old <> Some (JArray l)) ->
    (exists l, v = JArray l /\ includes l entry = true) ->
    listed key entry (obj_set key v a) /\
    (forall k, key <> k -> obj_get k (obj_set key v a) = obj_get k a) /\
    (forall l, obj_get key a = Some (JArray l) ->
               exists l2, obj_get key (obj_set key v a) = Some (JArray (l ++ l2))) /\
    (exists new, map fst (obj_set key v a) = map fst a ++ new) /\
    (listed key entry a -> true = o /\ obj_set key v a = a) /\
    (~ listed key entry a ->
     true = true /\ obj_get key (obj_set key v a) <> obj_get key a)).
  { intros old v Hget Hold (l & -> & Hin).
    split; [exists l; split; [apply obj_get_set_eq|exact Hin]|].
    split; [intros k Hk; apply obj_get_set_ne, Hk|].
    split; [intros l0 Hl0; rewrite Hget in Hl0; destruct (Hold l0 Hl0)|].
    split; [apply obj_set_keys|].
    split; [intros (l0 & Hl0 & _); rewrite Hget in Hl0; destruct (Hold l0 Hl0)|].
    intros _. split; [reflexivity|]. rewrite obj_get_set_eq, Hget.
    intros Heq. apply (Hold l). symmetry. exact Heq. }
  unfold add_entry.
  destruct (obj_get key a) as [[| | | | s | l | m]|] eqn:Hget.
  6:{ destruct (includes l entry) eqn:Hin; cbn [negb].
      - assert (Hyes : listed key entry a) by (exists l; auto).
        split; [exact Hyes|]. split; [reflexivity|].
        split; [intros l0 [= <-]; exists []; rewrite app_nil_r; exact Hget|].
        split; [exists []; rewrite app_nil_r; reflexivity|].
        split; [auto|]. intros Hno. destruct (Hno Hyes).
      - split; [exists (l ++ [JString entry]);
                split; [apply obj_get_set_eq|apply includes_snoc]|].
        split; [intros k Hk; apply obj_get_set_ne, Hk|].
        split; [intros l0 Hl0; injection Hl0 as <-;
                exists [JString entry]; apply obj_get_set_eq|].
        split; [apply obj_set_keys|].
        split; [intros (l0 & Hl0 & Hyes); rewrite Hget in Hl0; injection Hl0 as <-;
                congruence|].
        intros _. split; [reflexivity|]. rewrite obj_get_set_eq. intros [= Heq].
        apply (f_equal (@length json)) in Heq. rewrite length_app in Heq.
        cbn in Heq. lia. }
  all: eapply Hreplace; [reflexivity|intros l0; discriminate|].
  5: exists ([JString s] ++ [JString entry]); split; [reflexivity|apply includes_snoc].
  all: exists ([] ++ [JString entry]); split; [reflexivity|apply includes_snoc].
Qed.

Lemma listed_dec key entry a : listed key entry a \/ ~ listed key entry a.
Proof.
  unfold listed. destruct (obj_get key a) as [[| | | | s | l | m]|];
    try (right; intros (l0 & Hl0 & _); discriminate Hl0).
  destruct (includes l entry) eqn:Hin.
  - left. exists l. auto.
  - right. intros (l0 & [= <-] & Hyes). congruence.
Qed.

Lemma keys_differ : js "log-level" <> js "enable-proposed-api".
Proof. discriminate. Qed.

(** The two blocks of a run, with what [add_entry_spec] says of each. *)
Ltac blocks extensionId argv :=
  unfold isArgvJsonOutdated;
  let H1 := fresh "H" in
  let H2 := fresh "H" in
  pose proof (add_entry_spec (js "enable-proposed-api") extensionId false argv []) as H1;
  destruct (add_entry (js "enable-proposed-api") extensionId (false, argv, []))
    as [[o1 a1] t1];
  destruct H1 as (P1 & F1 & A1 & K1 & Y1 & N1);
  pose proof (add_entry_spec (js "log-level") (extensionId ++ js "=debug") o1 a1 t1) as H2;
  destruct (add_entry (js "log-level") (extensionId ++ js "=debug") (o1, a1, t1))
    as [[o2 a2] t2];
  destruct H2 as (P2 & F2 & A2 & K2 & Y2 & N2);
  cbn [argvJsonOutdated argvJson logged written].

Lemma listed_frame key entry a a' :
  obj_get key a' = obj_get key a -> listed key entry a -> listed key entry a'.
Proof. intros H (l & Hl & Hin). exists l. rewrite H. auto. Qed.

Lemma argv_entries_present_aux extensionId argv :
  listed (js "enable-proposed-api") extensionId
         (argvJson (isArgvJsonOutdated extensionId argv)) /\
  listed (js "log-level") (extensionId ++ js "=debug")
         (argvJson (isArgvJsonOutdated extensionId argv)).
Proof.
  blocks extensionId argv. split; [|exact P2].
  apply (listed_frame _ _ a1); [|exact P1]. apply F2, keys_differ.
Qed.

(** X8. After a run of [isArgvJsonOutdated], whatever argv.json held,
    ["enable-proposed-api"] is an array that has the extension id and
    ["log-level"] is an array that has the id followed by [=debug]. *)
Theorem argv_entries_present (extensionId : jsstring) (argv : list (jsstring * json)) :
  let r := isArgvJsonOutdated extensionId argv in
  listed (js "enable-proposed-api") extensionId (argvJson r) /\
  listed (js "log-level") (extensionId ++ js "=debug") (argvJson r).
Proof. apply argv_entries_present_aux. Qed.

(** X9. A second run finds nothing to do: on the object a run has left,
    [isArgvJsonOutdated] answers [false], changes nothing and writes
    nothing, so the restart it asks for is asked once. *)
Theorem argv_settles (extensionId : jsstring) (argv : list (jsstring * json)) :
  let r := isArgvJsonOutdated extensionId argv in
  let r2 := isArgvJsonOutdated extensionId (argvJson r) in
  argvJsonOutdated r2 = false /\ argvJson r2 = argvJson r /\ written r2 = None.
Proof.
  pose proof (argv_entries_present_aux extensionId argv) as [H1 H2].
  intros r r2. subst r2. revert H1 H2. fold r. generalize (argvJson r) as a. clear r.
  intros a H1 H2. blocks extensionId a.
  destruct (Y1 H1) as [-> ->]. destruct (Y2 H2) as [-> ->]. auto.
Qed.

(** X10. The flag says whether the object was changed, and the file is
    written exactly then, with the changed object: [isArgvJsonOutdated]
    answers [true] if and only if the object it leaves differs from the
    one parsed. *)
Theorem argv_flag_exact (extensionId : jsstring) (argv : list (jsstring * json)) :
  let r := isArgvJsonOutdated extensionId argv in
  (argvJsonOutdated r = true <-> argvJson r <> argv) /\
  written r = (if argvJsonOutdated r then Some (argvJson r) else None).
Proof.
  blocks extensionId argv. split; [|reflexivity].
  destruct (listed_dec (js "enable-proposed-api") extensionId argv) as [L1|L1];
    destruct (listed_dec (js "log-level") (extensionId ++ js "=debug") a1) as [L2|L2].
  - destruct (Y1 L1) as [-> ->]. destruct (Y2 L2) as [-> ->].
    split; [discriminate|congruence].
  - destruct (Y1 L1) as [-> ->]. destruct (N2 L2) as [-> Hne].
    split; [intros _ Heq; rewrite Heq in Hne; congruence|reflexivity].
  - destruct (N1 L1) as [-> Hne]. destruct (Y2 L2) as [-> ->].
    split; [intros _ Heq; rewrite Heq in Hne; congruence|reflexivity].
  - destruct (N1 L1) as [-> Hne]. destruct (N2 L2) as [-> _].
    split; [|reflexivity]. intros _ Heq. apply Hne.
    rewrite <- (F2 _ keys_differ), Heq. reflexivity.
Qed.

(** X11. The patch only adds. Every other property of argv.json keeps
    its value, the properties keep their order (new ones go last), and an
    array already under one of the two properties keeps all its entries,
    in order, before what is pushed. *)
Theorem argv_only_adds (extensionId : jsstring) (argv : list (jsstring * json)) :
  let r := isArgvJsonOutdated extensionId argv in
  (forall k, k <> js "enable-proposed-api" -> k <> js "log-level" ->
             obj_get k (argvJson r) = obj_get k argv) /\
  (exists new, map fst (argvJson r) = map fst argv ++ new) /\
  (forall l, obj_get (js "enable-proposed-api") argv = Some (JArray l) ->
             exists l2, obj_get (js "enable-proposed-api") (argvJson r)
                        = Some (JArray (l ++ l2))) /\
  (forall l, obj_get (js "log-level") argv = Some (JArray l) ->
             exists l2, obj_get (js "log-level") (argvJson r) = Some (JArray (l ++ l2))).
Proof.
  blocks extensionId argv. split; [|split; [|split]].
  - intros k Hk1 Hk2. rewrite F2 by congruence. apply F1. congruence.
  - destruct K1 as [n1 K1]. destruct K2 as [n2 K2]. exists (n1 ++ n2).
    rewrite K2, K1, app_assoc. reflexivity.
  - intros l Hl. destruct (A1 l Hl) as [l2 Hl2]. exists l2.
    rewrite F2 by apply keys_differ. exact Hl2.
  - intros l Hl. apply A2. rewrite F1 by (intros Heq; symmetry in Heq; apply keys_differ, Heq).
    exact Hl.
Qed.

End StartupFacts.

(** ** The packaging script *)

Module BuildScriptFacts.
Import Js BuildScript.

Lemma elem_of_prefixed {A} (p : list A) f l :
  p ++ f ∈ map (fun g => p ++ g) l <-> f ∈ l.
Proof.
  induction l as [|g l IH]; cbn [map].
  - split; intros H; apply elem_of_nil in H as [].
  - rewrite !elem_of_cons, IH. split.
    + intros [Heq|H]; [left; apply app_inv_head in Heq; exact Heq|right; exact H].
    + intros [->|H]; [left; reflexivity|right; exact H].
Qed.

Lemma deletes_spec keep f :
  deletes keep f = false <-> Some f = keep \/ startsWith f (js "node-napi") = false.
Proof.
  unfold deletes. destruct (bool_decide_reflect (Some f = keep)) as [Hk|Hk];
    destruct (startsWith f (js "node-napi")); cbn; split; auto.
  intros [H|H]; [contradiction|discriminate].
Qed.

(** *** The directory *)

Lemma filter_all {A} (p : A -> bool) l :
  (forall x, x ∈ l -> p x = true) -> List.filter p l = l.
Proof.
  induction l as [|x l IH]; intros H; [reflexivity|]. cbn [List.filter].
  rewrite (H x) by left. rewrite IH; [reflexivity|]. intros y Hy. apply H. right. exact Hy.
Qed.

Lemma filter_twice {A} (p q : A -> bool) l :
  List.filter p (List.filter q l) = List.filter (fun x => q x && p x) l.
Proof.
  induction l as [|x l IH]; [reflexivity|]. cbn [List.filter].
  destruct (q x); cbn [List.filter andb]; [destruct (p x)|]; rewrite IH; reflexivity.
Qed.

Lemma filter_same {A} (p q : A -> bool) l :
  (forall x, x ∈ l -> p x = q x) -> List.filter p l = List.filter q l.
Proof.
  intros H. apply filter_ext_in. intros x Hx. apply H, list_elem_of_In, Hx.
Qed.

Lemma kind_of_filter (p : jsstring * Kind -> bool) file dir :
  (forall k, p (file, k) = true) ->
  kind_of file (List.filter p dir) = kind_of file dir.
Proof.
  intros Hp. induction dir as [|[n k] dir IH]; [reflexivity|]. cbn [List.filter kind_of].
  destruct (bool_decide_reflect (n = file)) as [->|Hn].
  - rewrite Hp. cbn [kind_of]. rewrite bool_decide_eq_true_2 by reflexivity. reflexivity.
  - destruct (p (n, k)); [|exact IH].
    cbn [kind_of]. rewrite bool_decide_eq_false_2 by exact Hn. exact IH.
Qed.

Lemma kind_of_elem dir file k :
  NoDup (map fst dir) -> (file, k) ∈ dir -> kind_of file dir = Some k.
Proof.
  induction dir as [|[n k'] dir IH]; intros Hnd Hin; [apply elem_of_nil in Hin as []|].
  cbn [map fst] in Hnd. apply NoDup_cons in Hnd as [Hn Hnd]. cbn [kind_of].
  apply elem_of_cons in Hin as [Heq|Hin].
  - injection Heq as <- <-. rewrite bool_decide_eq_true_2 by reflexivity. reflexivity.
  - rewrite bool_decide_eq_false_2; [apply IH; assumption|].
    intros ->. apply Hn. apply (list_elem_of_fmap_2 fst) in Hin. exact Hin.
Qed.

Lemma all_files_elem keep dir file k :
  all_files keep dir = true -> (file, k) ∈ dir -> deletes keep file = true -> k = File.
Proof.
  unfold all_files. rewrite forallb_forall. intros Hall Hin Hd.
  specialize (Hall (file, k) ltac:(apply list_elem_of_In; exact Hin)).
  cbn [fst snd] in Hall. rewrite Hd in Hall. destruct k; [reflexivity|discriminate..].
Qed.

Lemma elem_of_names (dir : list (jsstring * Kind)) file :
  file ∈ map fst dir <-> exists k, (file, k) ∈ dir.
Proof.
  split.
  - intros H. apply list_elem_of_fmap in H as ([n k] & -> & Hin). exists k. exact Hin.
  - intros [k Hin]. apply (list_elem_of_fmap_2 fst) in Hin. exact Hin.
Qed.

(** *** The loop *)

Lemma taken_skip keep f fs (e : jsstring * Kind) :
  deletes keep f = false ->
  negb (deletes keep e.1 && bool_decide (e.1 ∈ f :: fs)) =
  negb (deletes keep e.1 && bool_decide (e.1 ∈ fs)).
Proof.
  intros Hd. destruct (decide (e.1 = f)) as [->|Hne].
  - rewrite Hd. reflexivity.
  - f_equal. f_equal. apply bool_decide_ext. rewrite elem_of_cons. tauto.
Qed.

Lemma taken_unlinked keep f fs (e : jsstring * Kind) :
  deletes keep f = true ->
  negb (bool_decide (e.1 = f)) && negb (deletes keep e.1 && bool_decide (e.1 ∈ fs)) =
  negb (deletes keep e.1 && bool_decide (e.1 ∈ f :: fs)).
Proof.
  intros Hd. destruct (bool_decide_reflect (e.1 = f)) as [->|Hne]; cbn [negb andb].
  - rewrite Hd, bool_decide_eq_true_2 by left. reflexivity.
  - f_equal. f_equal. apply bool_decide_ext. rewrite elem_of_cons. tauto.
Qed.

(** The loop over names on which [unlinkSync] does not throw. *)
Lemma loop_app keep fs1 fs2 out dir :
  NoDup fs1 ->
  (forall f, f ∈ fs1 -> deletes keep f = true -> kind_of f dir = Some File) ->
  loop keep (fs1 ++ fs2) out dir =
  loop keep fs2
    (out ++ map (fun f => js "Deleting file: " ++ f) (List.filter (deletes keep) fs1))
    (List.filter (fun e => negb (deletes keep e.1 && bool_decide (e.1 ∈ fs1))) dir).
Proof.
  revert out dir. induction fs1 as [|f fs1 IH]; intros out dir Hnd Hk.
  - cbn [app List.filter map]. rewrite app_nil_r, filter_all; [reflexivity|].
    intros e _. rewrite bool_decide_eq_false_2 by apply not_elem_of_nil.
    rewrite andb_false_r. reflexivity.
  - apply NoDup_cons in Hnd as [Hf Hnd]. cbn [app loop List.filter].
    assert (Hskip : deletes keep f = false ->
              loop keep (fs1 ++ fs2) out dir =
              loop keep fs2
                (out ++ map (fun f => js "Deleting file: " ++ f)
                          (if deletes keep f then f :: List.filter (deletes keep) fs1
                           else List.filter (deletes keep) fs1))
                (List.filter
                   (fun e => negb (deletes keep e.1 && bool_decide (e.1 ∈ f :: fs1))) dir)).
    { intros Hd. rewrite Hd, IH; [|exact Hnd|intros g Hg; apply Hk; right; exact Hg].
      f_equal. apply filter_same. intros e _. symmetry. apply taken_skip, Hd. }
    destruct (bool_decide_reflect (Some f = keep)) as [Hkeep|Hkeep].
    { apply Hskip, deletes_spec. left. exact Hkeep. }
    destruct (startsWith f (js "node-napi")) eqn:Hs.
    2:{ apply Hskip, deletes_spec. right. exact Hs. }
    assert (Hd : deletes keep f = true).
    { unfold deletes. rewrite Hs, bool_decide_eq_false_2 by exact Hkeep. reflexivity. }
    unfold unlinkSync. rewrite (Hk f ltac:(left) Hd), Hd.
    rewrite IH; [|exact Hnd|].
    + cbn [map]. rewrite <- app_assoc. cbn [app]. f_equal.
      rewrite filter_twice. apply filter_same. intros e _. apply taken_unlinked, Hd.
    + intros g Hg Hdg. rewrite kind_of_filter; [apply Hk; [right; exact Hg|exact Hdg]|].
      intros k. cbn [fst]. rewrite bool_decide_eq_false_2; [reflexivity|].
      intros <-. contradiction.
Qed.

Lemma loop_nothing keep files out dir :
  (forall f, f ∈ files -> deletes keep f = false) ->
  loop keep files out dir = {| printed := out; left_in_dir := dir; thrown := None |}.
Proof.
  induction files as [|f files IH]; intros H; [reflexivity|]. cbn [loop].
  assert (IH' : loop keep files out dir =
                {| printed := out; left_in_dir := dir; thrown := None |})
    by (apply IH; intros g Hg; apply H; right; exact Hg).
  destruct (proj1 (deletes_spec keep f) (H f ltac:(left))) as [Hk|Hs].
  - rewrite bool_decide_eq_true_2 by exact Hk. exact IH'.
  - rewrite Hs. destruct (bool_decide (Some f = keep)); exact IH'.
Qed.

Lemma taken_listed keep (dir l : list (jsstring * Kind)) :
  (forall e, e ∈ l -> e.1 ∈ map fst dir) ->
  List.filter (fun e => negb (deletes keep e.1 && bool_decide (e.1 ∈ map fst dir))) l =
  List.filter (fun e => negb (deletes keep e.1)) l.
Proof.
  intros H. apply filter_same. intros e He.
  rewrite bool_decide_eq_true_2 by (apply H, He). rewrite andb_true_r. reflexivity.
Qed.

(** The script on a directory where nothing stops it. *)
Lemma script_completes_aux (value : jsstring) (outDir : list (jsstring * Kind)) (r : Swept) :
  NoDup (map fst outDir) ->
  all_files (binary_of value targetMapping) outDir = true ->
  script value outDir = Some r ->
  r = {| printed := map (fun f => js "Deleting file: " ++ f)
                      (List.filter (deletes (binary_of value targetMapping))
                                   (map fst outDir));
         left_in_dir := List.filter
                          (fun e => negb (deletes (binary_of value targetMapping) e.1))
                          outDir;
         thrown := None |}.
Proof.
  intros Hnd Hall. unfold script, parse_target.
  destruct (bool_decide (value ∈ map fst targetMapping)); [|discriminate].
  intros [= <-]. rewrite <- (app_nil_r (map fst outDir)) at 1.
  rewrite loop_app; [|exact Hnd|].
  - cbn [loop app]. f_equal. apply taken_listed.
    intros [n k] He. apply elem_of_names. exists k. exact He.
  - intros f Hf Hd. apply elem_of_names in Hf as [k Hin].
    rewrite (kind_of_elem outDir f k Hnd Hin). f_equal.
    apply (all_files_elem _ outDir f k Hall Hin Hd).
Qed.

Lemma script_leaves_aux (value : jsstring) (outDir : list (jsstring * Kind)) (r : Swept) :
  NoDup (map fst outDir) ->
  all_files (binary_of value targetMapping) outDir = true ->
  script value outDir = Some r ->
  thrown r = None /\
  (forall e, e ∈ left_in_dir r <->
             e ∈ outDir /\
             (Some e.1 = binary_of value targetMapping \/
              startsWith e.1 (js "node-napi") = false)) /\
  (forall f, js "Deleting file: " ++ f ∈ printed r <->
             f ∈ map fst outDir /\ f ∉ map fst (left_in_dir r)).
Proof.
  intros Hnd Hall Hr. rewrite (script_completes_aux value outDir r Hnd Hall Hr).
  cbn [thrown left_in_dir printed]. set (keep := binary_of value targetMapping).
  assert (Hleft : forall e,
    e ∈ List.filter (fun e => negb (deletes keep e.1)) outDir <->
    e ∈ outDir /\ (Some e.1 = keep \/ startsWith e.1 (js "node-napi") = false)).
  { intros e. rewrite !list_elem_of_In, filter_In, negb_true_iff, deletes_spec.
    reflexivity. }
  split; [reflexivity|]. split; [exact Hleft|].
  intros f. rewrite elem_of_prefixed, list_elem_of_In, filter_In, <- list_elem_of_In.
  split.
  - intros [Hin Hd]. split; [exact Hin|].
    intros Hl. apply elem_of_names in Hl as [k Hl]. apply Hleft in Hl as [_ Hl].
    apply deletes_spec in Hl. cbn [fst] in Hl. congruence.
  - intros [Hin Hno]. split; [exact Hin|].
    destruct (deletes keep f) eqn:Hd; [reflexivity|]. exfalso. apply Hno.
    apply elem_of_names in Hin as [k Hin]. apply elem_of_names. exists k.
    apply Hleft. split; [exact Hin|]. apply deletes_spec. exact Hd.
Qed.


Lemma names_distinct (dir : list (jsstring * Kind)) :
  bool_decide (NoDup (map fst dir)) = true -> NoDup (map fst dir).
Proof. apply bool_decide_eq_true_1. Qed.


Lemma binary_of_elem t b m : binary_of t m = Some b -> (t, b) ∈ m.
Proof.
  induction m as [|[k f] m IH]; cbn [binary_of]; [discriminate|].
  destruct (bool_decide_reflect (t = k)) as [->|_].
  - intros [= ->]. left.
  - intros H. right. apply IH, H.
Qed.

Lemma NoDup_snd_inj {A B} (l : list (A * B)) t t' b :
  NoDup (map snd l) -> (t, b) ∈ l -> (t', b) ∈ l -> t = t'.
Proof.
  induction l as [|[k f] l IH]; intros Hnd H1 H2; [apply elem_of_nil in H1 as []|].
  cbn [map snd] in Hnd. apply NoDup_cons in Hnd as [Hf Hnd].
  assert (Hin : forall x, (x, f) ∈ l -> False).
  { intros x Hx. apply Hf. apply (list_elem_of_fmap_2 snd) in Hx. exact Hx. }
  apply elem_of_cons in H1 as [E1|H1]; apply elem_of_cons in H2 as [E2|H2].
  - congruence.
  - injection E1 as -> ->. destruct (Hin _ H2).
  - injection E2 as -> ->. destruct (Hin _ H1).
  - apply IH; assumption.
Qed.

Lemma binaries_distinct : NoDup (map snd targetMapping).
Proof. apply (bool_decide_unpack _). vm_compute. exact I. Qed.

Lemma binaries_named :
  Forall (fun p => startsWith p.2 (js "node-napi") = true) targetMapping.
Proof. repeat constructor. Qed.

(** X13. When every entry the script goes on to delete is a file that
    can be removed, of the binaries of the nine platforms only the one of
    the target can be left: the binary of any other platform is gone
    after the script, and the binary of the target, if it was there, is
    still there. *)
Theorem script_keeps_one_binary (value : jsstring) (outDir : list (jsstring * Kind))
    (r : Swept) (other file : jsstring) :
  NoDup (map fst outDir) ->
  all_files (binary_of value targetMapping) outDir = true ->
  script value outDir = Some r ->
  binary_of other targetMapping = Some file ->
  (other <> value -> file ∉ map fst (left_in_dir r)) /\
  (other = value -> forall k, (file, k) ∈ outDir -> (file, k) ∈ left_in_dir r).
Proof.
  intros Hnd Hall Hr Hb.
  destruct (script_leaves_aux value outDir r Hnd Hall Hr) as (_ & Hleft & _). split.
  - intros Hne Hin. apply elem_of_names in Hin as [k Hin].
    apply Hleft in Hin as [_ [Hk|Hs]]; cbn [fst] in *.
    + apply Hne. symmetry in Hk.
      apply (NoDup_snd_inj targetMapping other value file binaries_distinct);
        apply binary_of_elem; assumption.
    + apply binary_of_elem in Hb. pose proof binaries_named as Hn.
      rewrite Forall_forall in Hn. specialize (Hn _ Hb). cbn [snd] in Hn. congruence.
  - intros -> k Hin. apply Hleft. split; [exact Hin|]. left. symmetry. exact Hb.
Qed.

Lemma script_keeps_one_binary_witness :
  exists r,
    script (js "linux-x64") sample_dir = Some r /\
    (js "darwin-arm64" <> js "linux-x64" ->
     js "node-napi.darwin-arm64.node" ∉ map fst (left_in_dir r)) /\
    (js "darwin-arm64" = js "linux-x64" ->
     forall k, (js "node-napi.darwin-arm64.node", k) ∈ sample_dir ->
               (js "node-napi.darwin-arm64.node", k) ∈ left_in_dir r).
Proof.
  eexists. split; [vm_compute; reflexivity|].
  apply (script_keeps_one_binary (js "linux-x64") sample_dir).
  - apply names_distinct. vm_compute. reflexivity.
  - vm_compute. reflexivity.
  - vm_compute. reflexivity.
  - vm_compute. reflexivity.
Defined.

(** X14. When every entry the script goes on to delete is a file that
    can be removed, running the script again on what it left deletes
    nothing and prints nothing. *)
Theorem script_again (value : jsstring) (outDir : list (jsstring * Kind)) (r : Swept) :
  NoDup (map fst outDir) ->
  all_files (binary_of value targetMapping) outDir = true ->
  script value outDir = Some r ->
  script value (left_in_dir r) =
  Some {| printed := []; left_in_dir := left_in_dir r; thrown := None |}.
Proof.
  intros Hnd Hall Hr.
  destruct (script_leaves_aux value outDir r Hnd Hall Hr) as (_ & Hleft & _).
  unfold script, parse_target in *.
  destruct (bool_decide (value ∈ map fst targetMapping)); [|discriminate].
  rewrite loop_nothing; [reflexivity|].
  intros f Hf. apply elem_of_names in Hf as [k Hf]. apply Hleft in Hf as [_ H].
  apply deletes_spec. exact H.
Qed.

Lemma script_again_witness :
  exists r,
    script (js "linux-x64") sample_dir = Some r /\
    script (js "linux-x64") (left_in_dir r)
    = Some {| printed := []; left_in_dir := left_in_dir r; thrown := None |}.
Proof.
  eexists. split; [vm_compute; reflexivity|].
  apply (script_again (js "linux-x64") sample_dir).
  - apply names_distinct. vm_compute. reflexivity.
  - vm_compute. reflexivity.
  - vm_compute. reflexivity.
Defined.

(** X15. Nothing catches what [unlinkSync] throws. When the output
    directory has an entry that the script goes on to delete and that is
    not a file that can be removed (a directory, a protected file), and
    the entries listed before it that the script deletes are such files,
    the script ends at that entry with the error of [unlinkSync]: the
    line for the entry has been printed although the entry is still
    there, the files listed before it are deleted, and every entry
    listed after it is left, the binaries of the other platforms among
    them. *)
Theorem script_stops_at_refusal (value : jsstring)
    (before after : list (jsstring * Kind)) (d : jsstring) (kind : Kind) (r : Swept) :
  NoDup (map fst (before ++ (d, kind) :: after)) ->
  all_files (binary_of value targetMapping) before = true ->
  Some d <> binary_of value targetMapping ->
  startsWith d (js "node-napi") = true ->
  kind <> File ->
  script value (before ++ (d, kind) :: after) = Some r ->
  thrown r = refusal kind /\ thrown r <> None /\
  printed r =
    map (fun f => js "Deleting file: " ++ f)
        (List.filter (deletes (binary_of value targetMapping)) (map fst before)) ++
    [js "Deleting file: " ++ d] /\
  left_in_dir r =
    List.filter (fun e => negb (deletes (binary_of value targetMapping) e.1)) before ++
    (d, kind) :: after.
Proof.
  intros Hnd Hall Hkeep Hs Hkind. unfold script, parse_target.
  destruct (bool_decide (value ∈ map fst targetMapping)); [|discriminate].
  set (keep := binary_of value targetMapping) in *.
  set (outDir := before ++ (d, kind) :: after) in *.
  intros Hr. assert (Hr' : r = loop keep (map fst outDir) [] outDir) by congruence.
  subst r. clear Hr.
  assert (Hnames : map fst outDir = map fst before ++ d :: map fst after).
  { unfold outDir. rewrite map_app. reflexivity. }
  assert (Hsplit : NoDup (map fst before) /\
                   (forall f, f ∈ map fst before -> f ∉ d :: map fst after)).
  { rewrite Hnames in Hnd. apply NoDup_app in Hnd as (H1 & H2 & _). auto. }
  destruct Hsplit as [Hnb Hdisj].
  assert (Hd : d ∉ map fst before).
  { intros Hin. apply (Hdisj d Hin). left. }
  assert (Hrest : List.filter
                    (fun e => negb (deletes keep e.1 && bool_decide (e.1 ∈ map fst before)))
                    outDir =
                  List.filter (fun e => negb (deletes keep e.1)) before ++
                  (d, kind) :: after).
  { unfold outDir. rewrite List.filter_app. f_equal.
    - apply taken_listed. intros [n k] He. apply elem_of_names. exists k. exact He.
    - apply filter_all. intros [n k] He. cbn [fst].
      rewrite (bool_decide_eq_false_2 (n ∈ map fst before)); [apply negb_true_iff, andb_false_r|].
      intros Hin. apply (Hdisj n Hin).
      change (n ∈ map fst ((d, kind) :: after)).
      apply elem_of_names. exists k. exact He. }
  rewrite Hnames, loop_app; [|exact Hnb|].
  - rewrite Hrest. cbn [loop app].
    rewrite bool_decide_eq_false_2 by exact Hkeep. rewrite Hs.
    unfold unlinkSync. rewrite <- Hrest.
    rewrite kind_of_filter.
    + rewrite (kind_of_elem outDir d kind Hnd).
      * destruct kind; [contradiction| |]; cbn [thrown printed left_in_dir refusal];
          (split; [reflexivity|]); (split; [discriminate|]); split; reflexivity.
      * unfold outDir. apply elem_of_app. right. left.
    + intros k. cbn [fst]. rewrite (bool_decide_eq_false_2 _ Hd), andb_false_r. reflexivity.
  - intros f Hf Hdf. pose proof Hf as Hf'. apply elem_of_names in Hf' as [k Hin].
    rewrite (kind_of_elem outDir f k Hnd).
    + f_equal. apply (all_files_elem keep before f k Hall Hin Hdf).
    + unfold outDir. apply elem_of_app. left. exact Hin.
Qed.

Lemma script_stops_at_refusal_witness :
  exists r,
    script (js "linux-x64")
      (listed_before ++ (js "node-napi-cache", Directory) :: listed_after) = Some r /\
    thrown r = Some EISDIR /\ thrown r <> None /\
    printed r =
      map (fun f => js "Deleting file: " ++ f)
          (List.filter (deletes (binary_of (js "linux-x64") targetMapping))
                       (map fst listed_before)) ++
      [js "Deleting file: " ++ js "node-napi-cache"] /\
    left_in_dir r =
      List.filter (fun e => negb (deletes (binary_of (js "linux-x64") targetMapping) e.1))
                  listed_before ++
      (js "node-napi-cache", Directory) :: listed_after.
Proof.
  eexists. split; [vm_compute; reflexivity|].
  apply (script_stops_at_refusal (js "linux-x64") listed_before listed_after
           (js "node-napi-cache") Directory).
  - apply names_distinct. vm_compute. reflexivity.
  - vm_compute. reflexivity.
  - vm_compute. discriminate.
  - vm_compute. reflexivity.
  - discriminate.
  - vm_compute. reflexivity.
Defined.

End BuildScriptFacts.
